(** * The PureScript C++ runtime value [any]: a shallow embedding

    Source files: [pcc/runtime/purescript.hh] (class [any], its constructors,
    copy/move/assignment, [rawPointer], [cast], [map::get]) and
    [purescript.cc] (invocation, extraction operators, [unthunkVariant],
    symbol lookup, comparison and arithmetic operators).

    The class is a tag plus a union.  The embedding keeps both: a value is a
    record of a [Tag.t] and of the union member that was last written.
    Reading another member than the written one, dereferencing a handle that
    owns nothing, reading an array past its end, signed overflow and integer
    division by zero have no defined result in C++; the model stops with
    [UndefinedBehaviour] there.  [assert] is compiled in or out by [DEBUG]. *)

From Stdlib Require Import ZArith String Ascii List Lia Floats.
From stdpp Require Import base option list gmap strings.

Local Open Scope Z_scope.

(** ** Tags *)

Module Tag.

(** [enum class Tag], in the order of the header ([Thunk = 0x10], then
    consecutive). *)
Inductive t : Set :=
| Thunk | Integer | Double | Character | Boolean | StringLiteral
| Function | EffFunction | RawPointer | String | Map | Data | Array
| Closure | EffClosure | Pointer.

#[global] Instance eq_dec : EqDecision t.
Proof. solve_decision. Defined.

Definition code (x : t) : Z :=
  match x with
  | Thunk => 16 | Integer => 17 | Double => 18 | Character => 19
  | Boolean => 20 | StringLiteral => 21 | Function => 22
  | EffFunction => 23 | RawPointer => 24 | String => 25 | Map => 26
  | Data => 27 | Array => 28 | Closure => 29 | EffClosure => 30
  | Pointer => 31
  end.

Definition eqb (x y : t) : bool := bool_decide (x = y).

End Tag.

(** ** Native types *)

(** Code addresses: what a function pointer of each of the three shapes
    ([thunk], [fn], [eff_fn]) holds. *)
Definition thunk := N.
Definition fn := N.
Definition eff_fn := N.

(** A [const char *] is modelled by the characters it points to; C functions
    read them up to the first NUL or the end of the buffer. *)
Definition cstring := string.

(** [Private::Symbol] is a pointer to an anchor; [0] is [nullptr]. *)
Definition Symbol := N.
Definition nullsym : Symbol := 0%N.

(** A [void *]; [0] is [nullptr]. *)
Definition rawptr := N.

(** Addresses of objects held through [managed<T>]; [None] is a handle that
    owns nothing (a moved-from handle). *)
Definition loc := positive.
Definition managed := option loc.

(** The identities of the lambdas stored in [Closure_<T>] and
    [EffClosure_<T>] objects. *)
Definition lambda := N.
Definition eff_lambda := N.

(** [int] is 32 bits wide. *)
Definition int_min : Z := -2147483648.
Definition int_max : Z := 2147483647.
Definition in_int (z : Z) : bool := (int_min <=? z) && (z <=? int_max).

(** [char(e)]: conversion of an [int] expression to [char], taken as the
    signed 8-bit type of the x86 targets. *)
Definition to_char (z : Z) : Z := (z + 128) mod 256 - 128.

(** ** The union and the class *)

(** The anonymous union of [any]: the member last written. *)
Inductive storage : Type :=
| U_t (t : thunk)
| U_i (i : Z)
| U_d (d : float)
| U_c (c : Z)
| U_b (b : bool)
| U_r (r : cstring)
| U_f (f : fn)
| U_e (e : eff_fn)
| U_u (u : rawptr)
| U_s (s : managed)
| U_a (a : managed)
| U_l (l : managed)
| U_k (k : managed)
| U_p (p : managed).

Record any : Type := Any { tag : Tag.t; un : storage }.

Definition map_pair : Type := Symbol * any.

(** What a [managed<T>] handle points to. *)
Inductive object : Type :=
| OString (s : string)
| OArray (xs : list any)
| OMap (m : list map_pair)
| OData (xs : list any)
| OClosure (lam : lambda)
| OEffClosure (lam : eff_lambda)
| OBoxed (payload : N).

Record cell : Type := Cell { refs : nat; obj : object }.

(** Calls made through a function pointer or a virtual call. *)
Inductive event : Type :=
| CallThunk (t : thunk)
| CallFn (f : fn) (arg : any)
| CallEffFn (e : eff_fn)
| CallClosure (lam : lambda) (arg : any)
| CallEffClosure (lam : eff_lambda).

Record world : Type := World { heap : gmap loc cell; trace : list event }.

(** ** Outcomes *)

Inductive result (A : Type) : Type :=
| Done (a : A) (w : world)
| AssertionFailed (cond : string)
| UndefinedBehaviour
| OutOfFuel.

Arguments Done {A} a w.
Arguments AssertionFailed {A} cond.
Arguments UndefinedBehaviour {A}.
Arguments OutOfFuel {A}.

Definition M (A : Type) : Type := world -> result A.

#[global] Instance M_ret : MRet M := fun A a w => Done a w.

#[global] Instance M_bind : MBind M := fun A B f m w =>
  match m w with
  | Done a w' => f a w'
  | AssertionFailed c => AssertionFailed c
  | UndefinedBehaviour => UndefinedBehaviour
  | OutOfFuel => OutOfFuel
  end.

Definition undefined {A} : M A := fun _ => UndefinedBehaviour.
Definition out_of_fuel {A} : M A := fun _ => OutOfFuel.
Definition abort {A} (cond : string) : M A := fun _ => AssertionFailed cond.
Definition get_heap : M (gmap loc cell) := fun w => Done (heap w) w.
Definition put_heap (h : gmap loc cell) : M unit :=
  fun w => Done tt (World h (trace w)).
Definition log (e : event) : M unit :=
  fun w => Done tt (World (heap w) (trace w ++ [e])).

(** ** Reading a union member *)

Definition get_t (a : any) : M thunk :=
  match un a with U_t t => mret t | _ => undefined end.
Definition get_i (a : any) : M Z :=
  match un a with U_i i => mret i | _ => undefined end.
Definition get_d (a : any) : M float :=
  match un a with U_d d => mret d | _ => undefined end.
Definition get_c (a : any) : M Z :=
  match un a with U_c c => mret c | _ => undefined end.
Definition get_b (a : any) : M bool :=
  match un a with U_b b => mret b | _ => undefined end.
Definition get_r (a : any) : M cstring :=
  match un a with U_r r => mret r | _ => undefined end.
Definition get_f (a : any) : M fn :=
  match un a with U_f f => mret f | _ => undefined end.
Definition get_e (a : any) : M eff_fn :=
  match un a with U_e e => mret e | _ => undefined end.
Definition get_u (a : any) : M rawptr :=
  match un a with U_u u => mret u | _ => undefined end.
Definition get_s (a : any) : M managed :=
  match un a with U_s s => mret s | _ => undefined end.
Definition get_a (a : any) : M managed :=
  match un a with U_a x => mret x | _ => undefined end.
Definition get_l (a : any) : M managed :=
  match un a with U_l l => mret l | _ => undefined end.
Definition get_k (a : any) : M managed :=
  match un a with U_k k => mret k | _ => undefined end.
Definition get_p (a : any) : M managed :=
  match un a with U_p p => mret p | _ => undefined end.

(** ** C library and integer helpers *)

Definition NUL : ascii := Ascii.zero.

Definition uchar (c : ascii) : Z := Z.of_N (N_of_ascii c).

(** The [unsigned char] a C function reads at the start of a buffer; past
    the end of the modelled characters stands the terminating NUL. *)
Definition head_code (s : string) : Z :=
  match s with EmptyString => 0 | String c _ => uchar c end.

(** [strcmp]: the difference of the first pair of differing characters,
    [0] when both strings end together. *)
Fixpoint strcmp (s1 s2 : string) : Z :=
  let c1 := head_code s1 in
  let c2 := head_code s2 in
  if negb (c1 =? c2) then c1 - c2
  else if c1 =? 0 then 0
  else match s1, s2 with
       | String _ r1, String _ r2 => strcmp r1 r2
       | _, _ => 0
       end.

(** The characters a [std::string] built from a [const char *] receives. *)
Fixpoint c_prefix (s : string) : string :=
  match s with
  | EmptyString => EmptyString
  | String c r => if Ascii.eqb c NUL then EmptyString else String c (c_prefix r)
  end.

(** Signed [int] arithmetic: a result outside [int] is not defined. *)
Definition int_result (z : Z) : M Z :=
  if in_int z then mret z else undefined.

(** [x / y] and [x % y] on [int]: truncation towards zero; a zero divisor,
    or a quotient outside [int], is not defined. *)
Definition int_div (x y : Z) : M Z :=
  if y =? 0 then undefined else int_result (Z.quot x y).
Definition int_rem (x y : Z) : M Z :=
  if y =? 0 then undefined
  else if in_int (Z.quot x y) then mret (Z.rem x y) else undefined.

(** ** The six comparison operators *)

Inductive cmp_op : Set := OpEq | OpNe | OpLt | OpLe | OpGt | OpGe.

Definition cmpZ (op : cmp_op) (x y : Z) : bool :=
  match op with
  | OpEq => x =? y
  | OpNe => negb (x =? y)
  | OpLt => x <? y
  | OpLe => x <=? y
  | OpGt => y <? x
  | OpGe => y <=? x
  end.

Definition cmpF (op : cmp_op) (x y : float) : bool :=
  match op with
  | OpEq => PrimFloat.eqb x y
  | OpNe => negb (PrimFloat.eqb x y)
  | OpLt => PrimFloat.ltb x y
  | OpLe => PrimFloat.leb x y
  | OpGt => PrimFloat.ltb y x
  | OpGe => PrimFloat.leb y x
  end.

(** The address a handle holds, for the comparison of two handles. *)
Definition addr (m : managed) : Z :=
  match m with None => 0 | Some l => Zpos l end.

(** ** The five binary arithmetic operators on native operands *)

Inductive arith_op : Set := OpAdd | OpSub | OpMul | OpDiv | OpMod.

(** [x op y] on two [int]s. *)
Definition int_arith (op : arith_op) (x y : Z) : M Z :=
  match op with
  | OpAdd => int_result (x + y)
  | OpSub => int_result (x - y)
  | OpMul => int_result (x * y)
  | OpDiv => int_div x y
  | OpMod => int_rem x y
  end.

(** [x op y] on two [char]s, returned as [char]: the operands are promoted
    to [int], the result is converted back. *)
Definition char_arith (op : arith_op) (x y : Z) : M Z :=
  z ← int_arith op x y; mret (to_char z).

(** ** Build configuration and the code of the compiled program *)

Record config : Type := Config { DEBUG : bool; USE_GC : bool }.

(** What each code address and each stored lambda does when called. *)
Record program : Type := Program {
  thunk_code : thunk -> M any;
  fn_code : fn -> any -> M any;
  eff_fn_code : eff_fn -> M any;
  lambda_code : lambda -> any -> M any;
  eff_lambda_code : eff_lambda -> M any
}.

(** [mapM_] over a list, left to right. *)
Fixpoint for_each {A} (f : A -> M unit) (l : list A) : M unit :=
  match l with
  | [] => mret tt
  | x :: r => f x ≫= fun _ => for_each f r
  end.

(** The handle whose destructor [any::destruct] runs for a value. *)
Definition owned_handle (a : any) : M managed :=
  match tag a with
  | Tag.String => get_s a
  | Tag.Array => get_a a
  | Tag.Closure => get_l a
  | Tag.EffClosure => get_k a
  | Tag.Map | Tag.Data | Tag.Pointer => get_p a
  | _ => mret None
  end.

(** The values an object owns and destroys with itself. *)
Definition children (o : object) : list any :=
  match o with
  | OArray xs | OData xs => xs
  | OMap m => map snd m
  | _ => []
  end.

(** ** The runtime *)

Section Runtime.

Variable cfg : config.
Variable prog : program.

(** Bound on the thunk invocations of one [unthunkVariant] loop, and on the
    nesting depth of a recursive teardown, that the model follows. *)
Variable fuel : nat.

(** [assert(cond)]: checked when [DEBUG] is defined, compiled out otherwise. *)
Definition assert_ (cond : bool) (text : string) : M unit :=
  if DEBUG cfg then (if cond then mret tt else abort text) else mret tt.

(** Modelled from the spec: [purescript_memory.hh], which declares
    [managed<T>] and [make_managed], is not among the sources.  In the
    reference-counted mode a handle shares ownership: a copy increments the
    count, destruction decrements it, and reaching zero frees the object at
    once (its own values with it).  In the tracing-collector mode handles are
    never freed by the value. *)
Definition make_managed (o : object) : M managed :=
  h ← get_heap;
  let l := fresh (dom h) in
  put_heap (<[l := Cell 1 o]> h) ≫= fun _ => mret (Some l).

Definition deref (m : managed) : M object :=
  match m with
  | None => undefined
  | Some l =>
      h ← get_heap;
      match h !! l with
      | Some c => mret (obj c)
      | None => undefined
      end
  end.

Definition managed_copy (m : managed) : M managed :=
  if USE_GC cfg then mret m
  else match m with
       | None => mret None
       | Some l =>
           h ← get_heap;
           match h !! l with
           | Some c => put_heap (<[l := Cell (S (refs c)) (obj c)]> h) ≫= fun _ => mret m
           | None => undefined
           end
       end.

Fixpoint managed_release (n : nat) (m : managed) : M unit :=
  match m with
  | None => mret tt
  | Some l =>
      h ← get_heap;
      match h !! l with
      | None => undefined
      | Some c =>
          match refs c with
          | S (S k) => put_heap (<[l := Cell (S k) (obj c)]> h)
          | _ =>
              put_heap (delete l h) ≫= fun _ =>
              match children (obj c), n with
              | [], _ => mret tt
              | _ :: _, O => out_of_fuel
              | xs, S n' =>
                  for_each (fun x => owned_handle x ≫= managed_release n') xs
              end
          end
      end
  end.

(** *** Constructors (purescript.hh, lines 175-243) *)

Definition any_int (val : Z) : any := Any Tag.Integer (U_i val).
Definition any_double (val : float) : any := Any Tag.Double (U_d val).
Definition any_char (val : Z) : any := Any Tag.Character (U_c val).
Definition any_bool (val : bool) : any := Any Tag.Boolean (U_b val).
Definition any_literal (val : cstring) : any := Any Tag.StringLiteral (U_r val).
Definition any_fn (val : fn) : any := Any Tag.Function (U_f val).
Definition any_eff_fn (val : eff_fn) : any := Any Tag.EffFunction (U_e val).
Definition any_thunk (val : thunk) : any := Any Tag.Thunk (U_t val).
Definition any_rawptr (val : rawptr) : any := Any Tag.RawPointer (U_u val).
Definition any_nullptr : any := Any Tag.RawPointer (U_u 0%N).

(** [any(const long)]: the range is asserted, the value converted. *)
Definition any_long (val : Z) : M any :=
  assert_ (in_int val) "val >= min && val <= max" ≫= fun _ =>
  mret (Any Tag.Integer (U_i ((val - int_min) mod 2 ^ 32 + int_min))).

(** [any] from a [char] pointer *)
Definition any_chars (val : cstring) : M any :=
  s ← make_managed (OString (c_prefix val)); mret (Any Tag.String (U_s s)).
(** [any(const std::string&)], [any(std::string&&)] *)
Definition any_string (val : string) : M any :=
  s ← make_managed (OString val); mret (Any Tag.String (U_s s)).
(** [any(const managed<std::string>&)] *)
Definition any_managed_string (val : managed) : M any :=
  s ← managed_copy val; mret (Any Tag.String (U_s s)).
(** [any(map<N>&&)] *)
Definition any_map (val : list map_pair) : M any :=
  p ← make_managed (OMap val); mret (Any Tag.Map (U_p p)).
(** [any(data<N>&&)] *)
Definition any_data (val : list any) : M any :=
  p ← make_managed (OData val); mret (Any Tag.Data (U_p p)).
(** [any(const array&)], [any(array&&)] *)
Definition any_array (val : list any) : M any :=
  a ← make_managed (OArray val); mret (Any Tag.Array (U_a a)).
(** Callables that are not convertible to a function pointer. *)
Definition any_closure (val : lambda) : M any :=
  l ← make_managed (OClosure val); mret (Any Tag.Closure (U_l l)).
Definition any_eff_closure (val : eff_lambda) : M any :=
  k ← make_managed (OEffClosure val); mret (Any Tag.EffClosure (U_k k)).
(** [any(T&&)] for a handle assignable to [managed<void>] *)
Definition any_pointer (val : managed) : any := Any Tag.Pointer (U_p val).

(** *** Copy, move, assignment, destruction (purescript.hh, lines 246-327) *)

(** [assign(T&& other)]: fills the union of [*this] from [other]; the caller
    has set the tag.  [move_if_rvalue<T>(other.s)] deduces [U] from the
    lvalue [other.s], so in both instantiations the handle is
    copy-constructed.  No tag of the enumeration reaches the [default]
    case. *)
Definition assign (other : any) : M storage :=
  match tag other with
  | Tag.Thunk => t ← get_t other; mret (U_t t)
  | Tag.Integer => i ← get_i other; mret (U_i i)
  | Tag.Double => d ← get_d other; mret (U_d d)
  | Tag.Character => c ← get_c other; mret (U_c c)
  | Tag.Boolean => b ← get_b other; mret (U_b b)
  | Tag.StringLiteral => r ← get_r other; mret (U_r r)
  | Tag.Function => f ← get_f other; mret (U_f f)
  | Tag.EffFunction => e ← get_e other; mret (U_e e)
  | Tag.RawPointer => u ← get_u other; mret (U_u u)
  | Tag.String => s ← get_s other; s' ← managed_copy s; mret (U_s s')
  | Tag.Array => a ← get_a other; a' ← managed_copy a; mret (U_a a')
  | Tag.Closure => l ← get_l other; l' ← managed_copy l; mret (U_l l')
  | Tag.EffClosure => k ← get_k other; k' ← managed_copy k; mret (U_k k')
  | Tag.Map | Tag.Data | Tag.Pointer =>
      p ← get_p other; p' ← managed_copy p; mret (U_p p')
  end.

Definition destruct (self : any) : M unit :=
  owned_handle self ≫= managed_release fuel.

(** With [USE_GC] the four special members are the implicit ones, which
    copy the tag and the union as they are. *)
Definition copy_construct (other : any) : M any :=
  if USE_GC cfg then mret other
  else u ← assign other; mret (Any (tag other) u).

Definition move_construct (other : any) : M any :=
  if USE_GC cfg then mret other
  else u ← assign other; mret (Any (tag other) u).

Definition operator_assign (self rhs : any) : M any :=
  if USE_GC cfg then mret rhs
  else destruct self ≫= fun _ => u ← assign rhs; mret (Any (tag rhs) u).

Definition operator_assign_move (self rhs : any) : M any :=
  if USE_GC cfg then mret rhs
  else destruct self ≫= fun _ => u ← assign rhs; mret (Any (tag rhs) u).

(** *** Thunks and invocation (purescript.cc, lines 20-46 and 81-87) *)

Definition call_thunk (t : thunk) : M any :=
  log (CallThunk t) ≫= fun _ => thunk_code prog t.

(** The loop of [unthunkVariant]: while the tag of [variant] is [Thunk],
    [variant] is replaced by what the call through [variant->t] returns. *)
Fixpoint unthunkVariant_loop (n : nat) (variant : any) : M any :=
  if Tag.eqb (tag variant) Tag.Thunk then
    match n with
    | O => out_of_fuel
    | S n' => t ← get_t variant; a ← call_thunk t; unthunkVariant_loop n' a
    end
  else mret variant.

Definition unthunkVariant (a : any) : M any := unthunkVariant_loop fuel a.

(** [operator()(const as_thunk)] *)
Definition operator_call_thunk (self : any) : M any :=
  assert_ (Tag.eqb (tag self) Tag.Thunk) "type == Type::Thunk" ≫= fun _ =>
  t ← get_t self; call_thunk t.

Definition call_closure (l : managed) (arg : any) : M any :=
  o ← deref l;
  match o with
  | OClosure lam => log (CallClosure lam arg) ≫= fun _ => lambda_code prog lam arg
  | _ => undefined
  end.

Definition call_eff_closure (k : managed) : M any :=
  o ← deref k;
  match o with
  | OEffClosure lam => log (CallEffClosure lam) ≫= fun _ => eff_lambda_code prog lam
  | _ => undefined
  end.

(** [operator()(const any&)] *)
Definition operator_call (self arg : any) : M any :=
  variant ← unthunkVariant self;
  if Tag.eqb (tag variant) Tag.Closure then
    l ← get_l variant; call_closure l arg
  else
    assert_ (Tag.eqb (tag variant) Tag.Function) "variant.type == Type::Function" ≫= fun _ =>
    f ← get_f variant;
    log (CallFn f arg) ≫= fun _ => fn_code prog f arg.

(** [operator()()] *)
Definition operator_call_eff (self : any) : M any :=
  variant ← unthunkVariant self;
  if Tag.eqb (tag variant) Tag.EffClosure then
    k ← get_k variant; call_eff_closure k
  else
    assert_ (Tag.eqb (tag variant) Tag.EffFunction) "variant.type == Type::EffFunction" ≫= fun _ =>
    e ← get_e variant;
    log (CallEffFn e) ≫= fun _ => eff_fn_code prog e.

(** *** Extraction (purescript.cc, lines 20-23 and 48-79; purescript.hh, lines 352-356) *)

(** The macro [RETURN_VALUE(TYPE, ACCESSOR, INDIRECTION)]; the indirection
    is part of [ACCESSOR] here. *)
Definition RETURN_VALUE {A} (TYPE : Tag.t) (ACCESSOR : any -> M A) (self : any) : M A :=
  variant ← unthunkVariant self;
  assert_ (Tag.eqb (tag variant) TYPE) "variant.type == TYPE" ≫= fun _ =>
  ACCESSOR variant.

Definition operator_int : any -> M Z := RETURN_VALUE Tag.Integer get_i.
Definition operator_double : any -> M float := RETURN_VALUE Tag.Double get_d.
Definition operator_bool : any -> M bool := RETURN_VALUE Tag.Boolean get_b.
Definition operator_char : any -> M Z := RETURN_VALUE Tag.Character get_c.

(** [*variant.s] and [variant.s->c_str()]: the characters of the owned string. *)
Definition string_of (a : any) : M string :=
  s ← get_s a; o ← deref s;
  match o with OString str => mret str | _ => undefined end.

Definition operator_cstring (self : any) : M cstring :=
  variant ← unthunkVariant self;
  if Tag.eqb (tag variant) Tag.StringLiteral then get_r variant
  else
    assert_ (Tag.eqb (tag variant) Tag.String) "variant.type == Type::String" ≫= fun _ =>
    string_of variant.

Definition array_of (a : any) : M (list any) :=
  h ← get_a a; o ← deref h;
  match o with OArray xs => mret xs | _ => undefined end.

Definition operator_array : any -> M (list any) := RETURN_VALUE Tag.Array array_of.

(** [extractPointer(IF_DEBUG(const Tag t))]; the handle stands for the
    address it holds. *)
Definition extractPointer (t : Tag.t) : any -> M managed := RETURN_VALUE t get_p.

(** [rawPointer()]: the assertion reads [tag], the tag of [*this]. *)
Definition rawPointer (self : any) : M rawptr :=
  variant ← unthunkVariant self;
  assert_ (Tag.eqb (tag self) Tag.RawPointer) "tag == Tag::RawPointer" ≫= fun _ =>
  get_u variant.

(** [cast<any::map<N>>], [cast<any::data<N>>] and [cast<T>] for another
    class: [TagHelper] picks the tag, the pointer is reinterpreted.  The
    object is read with the length it was built with, whatever [N] is. *)
Definition cast_map (a : any) : M (list map_pair) :=
  p ← extractPointer Tag.Map a; o ← deref p;
  match o with OMap m => mret m | _ => undefined end.

Definition cast_data (a : any) : M (list any) :=
  p ← extractPointer Tag.Data a; o ← deref p;
  match o with OData xs => mret xs | _ => undefined end.

Definition cast_boxed (a : any) : M N :=
  p ← extractPointer Tag.Pointer a; o ← deref p;
  match o with OBoxed b => mret b | _ => undefined end.

(** *** Indexing and symbol lookup (purescript.cc, lines 89-124) *)

Definition invalid_key : any := any_nullptr.

(** The [do ... while (m[++i].first != nullptr)] scan, on the pairs from
    index [i] on: the key at [i] is compared first, then the key at [i + 1]
    is tested against [nullptr]. *)
Inductive scan_result : Type :=
| Found (v : any)
| NotFound
| PastTheEnd.

Fixpoint scan (key : Symbol) (m : list map_pair) : scan_result :=
  match m with
  | [] => PastTheEnd
  | p :: rest =>
      if N.eqb (fst p) key then Found (snd p)
      else match rest with
           | [] => PastTheEnd
           | q :: _ => if N.eqb (fst q) nullsym then NotFound else scan key rest
           end
  end.

(** [operator[](const symbol_t key)] *)
Definition operator_index_symbol (self : any) (key : Symbol) : M any :=
  m ← cast_map self;
  match scan key m with
  | Found v => mret v
  | NotFound => assert_ false "map key not found" ≫= fun _ => mret invalid_key
  | PastTheEnd => undefined
  end.

(** [contains(const symbol_t key)] *)
Definition contains (self : any) (key : Symbol) : M bool :=
  m ← cast_map self;
  match scan key m with
  | Found _ => mret true
  | NotFound => mret false
  | PastTheEnd => undefined
  end.

(** [map::get(key, a)] of the header: the same scan. *)
Definition map_get (key : Symbol) (a : any) : M any :=
  m ← cast_map a;
  match scan key m with
  | Found v => mret v
  | NotFound => assert_ false "map key not found" ≫= fun _ => mret invalid_key
  | PastTheEnd => undefined
  end.

Definition at_index {A} (xs : list A) (i : nat) : M A :=
  match xs !! i with Some x => mret x | None => undefined end.

(** [operator[](const size_t rhs)] *)
Definition operator_index (self : any) (rhs : nat) : M any :=
  xs ← operator_array self; at_index xs rhs.

(** [operator[](const any& rhs)] *)
Definition operator_index_any (self rhs : any) : M any :=
  xs ← operator_array self;
  i ← operator_int rhs;
  if i <? 0 then undefined else at_index xs (Z.to_nat i).

(** [data::get<N>(a)] and [map::get<N>(a)] *)
Definition data_get (n : nat) (a : any) : M any :=
  xs ← cast_data a; at_index xs n.
Definition map_get_at (n : nat) (a : any) : M any :=
  m ← cast_map a; p ← at_index m n; mret (snd p).

(** *** Operators (purescript.cc, lines 130-289) *)

Definition is_string_tag (t : Tag.t) : bool :=
  Tag.eqb t Tag.StringLiteral || Tag.eqb t Tag.String.

(** [rhs.type == StringLiteral ? rhs.r : rhs.s->c_str()] *)
Definition chars_of (a : any) : M cstring :=
  if Tag.eqb (tag a) Tag.StringLiteral then get_r a else string_of a.

(** [DEFINE_COMPARISON_OPERATOR(op)] *)
Definition operator_cmp (op : cmp_op) (lhs_ rhs_ : any) : M bool :=
  lhs ← unthunkVariant lhs_;
  rhs ← unthunkVariant rhs_;
  match tag lhs with
  | Tag.Integer =>
      assert_ (Tag.eqb (tag lhs) Tag.Integer) "lhs.type == any::Type::Integer" ≫= fun _ =>
      x ← get_i lhs; y ← get_i rhs; mret (cmpZ op x y)
  | Tag.Double =>
      assert_ (Tag.eqb (tag lhs) Tag.Double) "lhs.type == any::Type::Double" ≫= fun _ =>
      x ← get_d lhs; y ← get_d rhs; mret (cmpF op x y)
  | Tag.Character =>
      assert_ (Tag.eqb (tag lhs) Tag.Character) "lhs.type == any::Type::Character" ≫= fun _ =>
      x ← get_c lhs; y ← get_c rhs; mret (cmpZ op x y)
  | Tag.Boolean =>
      assert_ (Tag.eqb (tag lhs) Tag.Boolean) "lhs.type == any::Type::Boolean" ≫= fun _ =>
      x ← get_b lhs; y ← get_b rhs; mret (cmpZ op (Z.b2z x) (Z.b2z y))
  | Tag.StringLiteral =>
      assert_ (is_string_tag (tag lhs)) "lhs is StringLiteral or String" ≫= fun _ =>
      assert_ (is_string_tag (tag rhs)) "rhs is StringLiteral or String" ≫= fun _ =>
      x ← get_r lhs; y ← chars_of rhs; mret (cmpZ op (strcmp x y) 0)
  | Tag.String =>
      assert_ (is_string_tag (tag lhs)) "lhs is StringLiteral or String" ≫= fun _ =>
      assert_ (is_string_tag (tag rhs)) "rhs is StringLiteral or String" ≫= fun _ =>
      x ← string_of lhs; y ← chars_of rhs; mret (cmpZ op (strcmp x y) 0)
  | Tag.Pointer =>
      x ← get_p lhs; y ← get_p rhs; mret (cmpZ op (addr x) (addr y))
  | _ =>
      assert_ false "Unsupported type for operator" ≫= fun _ => mret false
  end.

(** [DEFINE_CSTR_EQUALS_OPERATOR()], the value on the left.  The test
    [lhs.r == rhs] on addresses only shortcuts [strcmp]: equal addresses
    hold equal characters. *)
Definition operator_eq_cstr (lhs_ : any) (rhs : cstring) : M bool :=
  lhs ← unthunkVariant lhs_;
  assert_ (is_string_tag (tag lhs)) "lhs is StringLiteral or String" ≫= fun _ =>
  if Tag.eqb (tag lhs) Tag.StringLiteral then
    x ← get_r lhs; mret (strcmp x rhs =? 0)
  else x ← string_of lhs; mret (strcmp x rhs =? 0).

(** The same, the value on the right; [strcmp(lhs, rhs)] converts [rhs]
    with [operator cstring]. *)
Definition operator_cstr_eq (lhs : cstring) (rhs_ : any) : M bool :=
  rhs ← unthunkVariant rhs_;
  assert_ (is_string_tag (tag rhs)) "rhs is StringLiteral or String" ≫= fun _ =>
  if Tag.eqb (tag rhs) Tag.StringLiteral then
    y ← operator_cstring rhs; mret (strcmp lhs y =? 0)
  else y ← string_of rhs; mret (strcmp lhs y =? 0).

(** [DEFINE_CSTR_COMPARISON_OPERATOR(op)] *)
Definition operator_cmp_cstr (op : cmp_op) (lhs : any) (rhs : cstring) : M bool :=
  x ← operator_cstring lhs; mret (cmpZ op (strcmp x rhs) 0).
Definition operator_cstr_cmp (op : cmp_op) (lhs : cstring) (rhs : any) : M bool :=
  y ← operator_cstring rhs; mret (cmpZ op (strcmp lhs y) 0).

(** [operator+(const any&, const any&)] *)
Definition operator_plus (lhs_ rhs_ : any) : M any :=
  lhs ← unthunkVariant lhs_;
  rhs ← unthunkVariant rhs_;
  match tag lhs with
  | Tag.Integer =>
      assert_ (Tag.eqb (tag lhs) Tag.Integer) "lhs.type == any::Type::Integer" ≫= fun _ =>
      x ← get_i lhs; y ← get_i rhs; z ← int_result (x + y); mret (any_int z)
  | Tag.Double =>
      assert_ (Tag.eqb (tag lhs) Tag.Double) "lhs.type == any::Type::Double" ≫= fun _ =>
      x ← get_d lhs; y ← get_d rhs; mret (any_double (PrimFloat.add x y))
  | Tag.Character =>
      assert_ (Tag.eqb (tag lhs) Tag.Character) "lhs.type == any::Type::Character" ≫= fun _ =>
      x ← get_c lhs; y ← get_c rhs; mret (any_char (to_char (x + y)))
  | Tag.StringLiteral =>
      assert_ (is_string_tag (tag lhs)) "lhs is StringLiteral or String" ≫= fun _ =>
      assert_ (is_string_tag (tag rhs)) "rhs is StringLiteral or String" ≫= fun _ =>
      if Tag.eqb (tag rhs) Tag.StringLiteral then
        x ← get_r lhs; y ← get_r rhs; any_string (c_prefix x +:+ c_prefix y)
      else x ← get_r lhs; y ← string_of rhs; any_string (c_prefix x +:+ y)
  | Tag.String =>
      assert_ (is_string_tag (tag lhs)) "lhs is StringLiteral or String" ≫= fun _ =>
      assert_ (is_string_tag (tag rhs)) "rhs is StringLiteral or String" ≫= fun _ =>
      if Tag.eqb (tag rhs) Tag.StringLiteral then
        x ← string_of lhs; y ← get_r rhs; any_string (x +:+ c_prefix y)
      else x ← string_of lhs; y ← string_of rhs; any_string (x +:+ y)
  | _ =>
      assert_ false "Unsupported type for '+' operator" ≫= fun _ => mret any_nullptr
  end.

(** [operator-(const any&, const any&)] *)
Definition operator_minus (lhs_ rhs_ : any) : M any :=
  lhs ← unthunkVariant lhs_;
  rhs ← unthunkVariant rhs_;
  assert_ (Tag.eqb (tag lhs) (tag rhs)) "lhs.type == rhs.type" ≫= fun _ =>
  match tag lhs with
  | Tag.Integer => x ← get_i lhs; y ← get_i rhs; z ← int_result (x - y); mret (any_int z)
  | Tag.Double => x ← get_d lhs; y ← get_d rhs; mret (any_double (PrimFloat.sub x y))
  | Tag.Character => x ← get_c lhs; y ← get_c rhs; mret (any_char (to_char (x - y)))
  | _ => assert_ false "Unsupported type for '-' operator" ≫= fun _ => mret any_nullptr
  end.

(** [operator*(const any&, const any&)] *)
Definition operator_times (lhs_ rhs_ : any) : M any :=
  lhs ← unthunkVariant lhs_;
  rhs ← unthunkVariant rhs_;
  assert_ (Tag.eqb (tag lhs) (tag rhs)) "lhs.type == rhs.type" ≫= fun _ =>
  match tag lhs with
  | Tag.Integer => x ← get_i lhs; y ← get_i rhs; z ← int_result (x * y); mret (any_int z)
  | Tag.Double => x ← get_d lhs; y ← get_d rhs; mret (any_double (PrimFloat.mul x y))
  | Tag.Character => x ← get_c lhs; y ← get_c rhs; mret (any_char (to_char (x * y)))
  | _ => assert_ false "Unsupported type for '*' operator" ≫= fun _ => mret any_nullptr
  end.

(** [operator/(const any&, const any&)] *)
Definition operator_div (lhs_ rhs_ : any) : M any :=
  lhs ← unthunkVariant lhs_;
  rhs ← unthunkVariant rhs_;
  assert_ (Tag.eqb (tag lhs) (tag rhs)) "lhs.type == rhs.type" ≫= fun _ =>
  match tag lhs with
  | Tag.Integer => x ← get_i lhs; y ← get_i rhs; z ← int_div x y; mret (any_int z)
  | Tag.Double => x ← get_d lhs; y ← get_d rhs; mret (any_double (PrimFloat.div x y))
  | Tag.Character => x ← get_c lhs; y ← get_c rhs; z ← int_div x y; mret (any_char (to_char z))
  | _ => assert_ false "Unsupported type for '/' operator" ≫= fun _ => mret any_nullptr
  end.

(** [operator%(const any&, const any&)] *)
Definition operator_mod (lhs_ rhs_ : any) : M any :=
  lhs ← unthunkVariant lhs_;
  rhs ← unthunkVariant rhs_;
  assert_ (Tag.eqb (tag lhs) (tag rhs)) "lhs.type == rhs.type" ≫= fun _ =>
  match tag lhs with
  | Tag.Integer => x ← get_i lhs; y ← get_i rhs; z ← int_rem x y; mret (any_int z)
  | Tag.Character => x ← get_c lhs; y ← get_c rhs; z ← int_rem x y; mret (any_char (to_char z))
  | _ => assert_ false "Unsupported type for '%' operator" ≫= fun _ => mret any_nullptr
  end.

(** Unary negate, [operator-(const any&)] *)
Definition operator_negate (rhs_ : any) : M any :=
  rhs ← unthunkVariant rhs_;
  match tag rhs with
  | Tag.Integer => x ← get_i rhs; z ← int_result (- x); mret (any_int z)
  | Tag.Double => x ← get_d rhs; mret (any_double (PrimFloat.opp x))
  | _ => assert_ false "Unsupported type for unary '-' operator" ≫= fun _ => mret any_nullptr
  end.

(** *** Operators against a native operand (purescript.hh, lines 360-413;
    purescript.cc, lines 217-227) *)

(** The macro [DEFINE_OPERATOR(op, ty, rty)]: [(ty)lhs op rhs] and
    [lhs op (ty)rhs], the conversion being the extraction operator of [ty]. *)
Definition DEFINE_OPERATOR_l {T R} (conv : any -> M T) (op : T -> T -> M R)
    (lhs : any) (rhs : T) : M R :=
  x ← conv lhs; op x rhs.
Definition DEFINE_OPERATOR_r {T R} (conv : any -> M T) (op : T -> T -> M R)
    (lhs : T) (rhs : any) : M R :=
  y ← conv rhs; op lhs y.

Definition operator_int_cmp (op : cmp_op) : Z -> any -> M bool :=
  DEFINE_OPERATOR_r operator_int (fun x y => mret (cmpZ op x y)).
Definition operator_cmp_double (op : cmp_op) : any -> float -> M bool :=
  DEFINE_OPERATOR_l operator_double (fun x y => mret (cmpF op x y)).
Definition operator_double_cmp (op : cmp_op) : float -> any -> M bool :=
  DEFINE_OPERATOR_r operator_double (fun x y => mret (cmpF op x y)).
Definition operator_cmp_char (op : cmp_op) : any -> Z -> M bool :=
  DEFINE_OPERATOR_l operator_char (fun x y => mret (cmpZ op x y)).
Definition operator_char_cmp (op : cmp_op) : Z -> any -> M bool :=
  DEFINE_OPERATOR_r operator_char (fun x y => mret (cmpZ op x y)).
Definition operator_cmp_bool (op : cmp_op) : any -> bool -> M bool :=
  DEFINE_OPERATOR_l operator_bool (fun x y => mret (cmpZ op (Z.b2z x) (Z.b2z y))).
Definition operator_bool_cmp (op : cmp_op) : bool -> any -> M bool :=
  DEFINE_OPERATOR_r operator_bool (fun x y => mret (cmpZ op (Z.b2z x) (Z.b2z y))).

Definition operator_int_arith (op : arith_op) : Z -> any -> M Z :=
  DEFINE_OPERATOR_r operator_int (int_arith op).
Definition operator_arith_char (op : arith_op) : any -> Z -> M Z :=
  DEFINE_OPERATOR_l operator_char (char_arith op).
Definition operator_char_arith (op : arith_op) : Z -> any -> M Z :=
  DEFINE_OPERATOR_r operator_char (char_arith op).

(** [operator+] of a value and a [char] pointer, returning a [std::string] *)
Definition operator_plus_cstr (lhs_ : any) (rhs : cstring) : M string :=
  lhs ← unthunkVariant lhs_;
  assert_ (is_string_tag (tag lhs)) "lhs is StringLiteral or String" ≫= fun _ =>
  if Tag.eqb (tag lhs) Tag.StringLiteral then
    x ← get_r lhs; mret (c_prefix x +:+ c_prefix rhs)
  else x ← string_of lhs; mret (x +:+ c_prefix rhs).

(** [operator+] of a [char] pointer and a value, returning a [std::string] *)
Definition operator_cstr_plus (lhs : cstring) (rhs_ : any) : M string :=
  rhs ← unthunkVariant rhs_;
  assert_ (is_string_tag (tag rhs)) "rhs is StringLiteral or String" ≫= fun _ =>
  if Tag.eqb (tag rhs) Tag.StringLiteral then
    y ← get_r rhs; mret (c_prefix lhs +:+ c_prefix y)
  else y ← string_of rhs; mret (c_prefix lhs +:+ y).

(** The five binary arithmetic operators on two values, by operator. *)
Definition operator_arith (op : arith_op) : any -> any -> M any :=
  match op with
  | OpAdd => operator_plus
  | OpSub => operator_minus
  | OpMul => operator_times
  | OpDiv => operator_div
  | OpMod => operator_mod
  end.

(** [data::ctor(a)]: the field at index 0, converted to [int]. *)
Definition data_ctor (a : any) : M Z :=
  v ← data_get 0 a; operator_int v.

End Runtime.

(** ** Notions the properties are stated with *)

(** [thunk_chain prog a w n v w']: from the world [w], the value [a] is a
    chain of [n] thunks, each resolving to the next, that ends in the
    non-thunk value [v]; [w'] is the world after the [n] calls. *)
Inductive thunk_chain (prog : program) : any -> world -> nat -> any -> world -> Prop :=
| chain_end a w :
    tag a <> Tag.Thunk ->
    thunk_chain prog a w 0 a w
| chain_step t a' w w1 n v w' :
    call_thunk prog t w = Done a' w1 ->
    thunk_chain prog a' w1 n v w' ->
    thunk_chain prog (any_thunk t) w (S n) v w'.

(** [holds_chars w a s]: [a] is a string-tagged value, of either
    representation, whose characters are [s]. *)
Definition holds_chars (w : world) (a : any) (s : string) : Prop :=
  a = any_literal s \/
  exists l n, a = Any Tag.String (U_s (Some l)) /\ heap w !! l = Some (Cell n (OString s)).

(** The first value paired with [key], as an association list is read. *)
Fixpoint assoc (key : Symbol) (entries : list map_pair) : option any :=
  match entries with
  | [] => None
  | p :: rest => if N.eqb (fst p) key then Some (snd p) else assoc key rest
  end.

(** A map as the generated code builds it: at least one entry, no entry
    keyed by [nullptr], unique keys, and the sentinel pair last. *)
Record map_layout (m entries : list map_pair) : Prop := MapLayout {
  layout_nonempty : entries <> [];
  layout_keys : Forall (fun p => fst p <> nullsym) entries;
  layout_unique : NoDup (map fst entries);
  layout_sentinel : exists v, m = entries ++ [(nullsym, v)]
}.

(** [is_map w a m]: [a] is a Map-tagged value whose handle holds [m]. *)
Definition is_map (w : world) (a : any) (m : list map_pair) : Prop :=
  exists l n, a = Any Tag.Map (U_p (Some l)) /\ heap w !! l = Some (Cell n (OMap m)).

(** A computation that, when it returns, has made no call. *)
Definition keeps_trace {A} (m : M A) : Prop :=
  forall w a w1, m w = Done a w1 -> trace w1 = trace w.

(** The union member that each tag selects. *)
Definition member_of (t : Tag.t) (u : storage) : bool :=
  match t, u with
  | Tag.Thunk, U_t _ | Tag.Integer, U_i _ | Tag.Double, U_d _
  | Tag.Character, U_c _ | Tag.Boolean, U_b _ | Tag.StringLiteral, U_r _
  | Tag.Function, U_f _ | Tag.EffFunction, U_e _ | Tag.RawPointer, U_u _
  | Tag.String, U_s _ | Tag.Array, U_a _ | Tag.Closure, U_l _
  | Tag.EffClosure, U_k _ | Tag.Map, U_p _ | Tag.Data, U_p _
  | Tag.Pointer, U_p _ => true
  | _, _ => false
  end.

(** A value as the constructors build it: the written member is the one of
    the tag, an Integer holds an [int] and a Character a [char]. *)
Definition well_formed (a : any) : Prop :=
  member_of (tag a) (un a) = true /\
  (forall i, un a = U_i i -> in_int i = true) /\
  (forall c, un a = U_c c -> -128 <= c <= 127).

(** [returns P m]: whenever [m] returns, its value satisfies [P]. *)
Definition returns {A} (P : A -> Prop) (m : M A) : Prop :=
  forall w a w1, m w = Done a w1 -> P a.

(** [is_array w a xs], [is_data w a xs]: [a] is an Array-tagged
    (Data-tagged) value whose handle holds [xs]. *)
Definition is_array (w : world) (a : any) (xs : list any) : Prop :=
  exists l n, a = Any Tag.Array (U_a (Some l)) /\ heap w !! l = Some (Cell n (OArray xs)).
Definition is_data (w : world) (a : any) (xs : list any) : Prop :=
  exists l n, a = Any Tag.Data (U_p (Some l)) /\ heap w !! l = Some (Cell n (OData xs)).

(** The characters a string-tagged operand contributes to a concatenation:
    a literal is read as a C string, an owned string whole. *)
Definition plus_chars (a : any) (s : string) : string :=
  if Tag.eqb (tag a) Tag.StringLiteral then c_prefix s else s.

(** The tags for which each arithmetic operator has a case, and those for
    which the comparison macro has one. *)
Definition arith_supported (op : arith_op) (t : Tag.t) : bool :=
  match op, t with
  | _, Tag.Integer | _, Tag.Character => true
  | OpMod, _ => false
  | _, Tag.Double => true
  | OpAdd, Tag.StringLiteral | OpAdd, Tag.String => true
  | _, _ => false
  end.

Definition cmp_supported (t : Tag.t) : bool :=
  match t with
  | Tag.Integer | Tag.Double | Tag.Character | Tag.Boolean
  | Tag.StringLiteral | Tag.String | Tag.Pointer => true
  | _ => false
  end.

(** ** The optimizer's driver (Optimizer.hs, lines 61-92) *)

Module Optimizer.

Section Driver.

(** The intermediate representation, its [Eq] instance, and the state the
    passes thread (the supply of fresh names). *)
Variable Cpp : Type.
Variable eqb : Cpp -> Cpp -> bool.
Variable supply : Type.



End Driver.

End Optimizer.

(** ** A small program for concrete runs *)

Definition debug_build : config := Config true false.
Definition release_build : config := Config false false.
Definition debug_gc_build : config := Config true true.

Definition w0 : world := World ∅ [].

(** Thunk 1 resolves to thunk 2, thunk 2 to the integer 42, thunk 3 to a
    null raw pointer, thunk 4 to the function 1; function 1 is the identity;
    the effect function 1 returns 7; lambda 1 returns its argument's
    successor when it is an integer; the effect lambda 1 returns 9. *)
Definition demo : program :=
  Program
    (fun t => match t with
              | 1%N => mret (any_thunk 2%N)
              | 2%N => mret (any_int 42)
              | 3%N => mret any_nullptr
              | 4%N => mret (any_fn 1%N)
              | _ => undefined
              end)
    (fun f a => match f with 1%N => mret a | _ => undefined end)
    (fun e => match e with 1%N => mret (any_int 7) | _ => undefined end)
    (fun l a => match l with
                | 1%N => i ← get_i a; mret (any_int (i + 1))
                | _ => undefined
                end)
    (fun l => match l with 1%N => mret (any_int 9) | _ => undefined end).

Definition sym_x : Symbol := 1%N.
Definition sym_y : Symbol := 2%N.
Definition sym_z : Symbol := 3%N.

Definition demo_entries : list map_pair := [(sym_x, any_int 1); (sym_y, any_int 2)].
Definition demo_map : list map_pair := demo_entries ++ [(nullsym, any_nullptr)].

(** A world whose heap holds the string "abc" at 1, [demo_map] at 2, a
    closure of lambda 1 at 3 and an effect closure of lambda 1 at 4. *)
Definition demo_world : world :=
  World (<[1%positive := Cell 1 (OString "abc")]>
         (<[2%positive := Cell 1 (OMap demo_map)]>
         (<[3%positive := Cell 1 (OClosure 1%N)]>
         (<[4%positive := Cell 1 (OEffClosure 1%N)]> ∅)))) [].

(** A program whose thunk 1 resolves to itself. *)
Definition looping : program :=
  Program
    (fun t => match t with 1%N => mret (any_thunk 1%N) | _ => undefined end)
    (fun _ _ => undefined) (fun _ => undefined)
    (fun _ _ => undefined) (fun _ => undefined).

(** A world whose heap also holds an array of three integers at 5, a data
    tuple (constructor 1, one field) at 6 and a map that is only the
    sentinel at 7. *)
Definition demo_elems : list any := [any_int 10; any_int 20; any_int 30].
Definition demo_fields : list any := [any_int 1; any_literal "f"].
Definition demo_world2 : world :=
  World (<[5%positive := Cell 1 (OArray demo_elems)]>
         (<[6%positive := Cell 1 (OData demo_fields)]>
         (<[7%positive := Cell 1 (OMap [(nullsym, any_nullptr)])]>
         (heap demo_world)))) [].


(** ** Properties *)

Ltac run := repeat progress (unfold mbind, mret, M_bind, M_ret, get_heap; simpl).

Lemma tag_eqb_eq (x y : Tag.t) : Tag.eqb x y = true <-> x = y.
Proof. unfold Tag.eqb. apply bool_decide_eq_true. Qed.

Lemma tag_eqb_neq (x y : Tag.t) : Tag.eqb x y = false <-> x <> y.
Proof. unfold Tag.eqb. apply bool_decide_eq_false. Qed.

Lemma tag_eqb_refl (x : Tag.t) : Tag.eqb x x = true.
Proof. by apply tag_eqb_eq. Qed.

Section Forcing.

Variable prog : program.

Lemma unthunkVariant_loop_forced (n : nat) (a : any) (w : world) :
  tag a <> Tag.Thunk -> unthunkVariant_loop prog n a w = Done a w.
Proof.
  intros Hne. apply tag_eqb_neq in Hne.
  destruct n; simpl; rewrite Hne; reflexivity.
Qed.

Lemma unthunkVariant_loop_chain (a : any) (w : world) (n : nat) (v : any) (w' : world) :
  thunk_chain prog a w n v w' ->
  forall k, (n <= k)%nat -> unthunkVariant_loop prog k a w = Done v w'.
Proof.
  induction 1 as [a w Hne | t a' w w1 n v w' Hcall _ IH]; intros k Hk.
  - by apply unthunkVariant_loop_forced.
  - destruct k as [|k]; [lia|].
    simpl. run. rewrite Hcall. apply IH. lia.
Qed.

Lemma thunk_chain_end (a : any) (w : world) (n : nat) (v : any) (w' : world) :
  thunk_chain prog a w n v w' -> tag v <> Tag.Thunk.
Proof. induction 1; assumption. Qed.

(** C1. A value that is a chain of [n] thunks is forced, by [n] calls, to
    the non-thunk value the chain ends in, whatever [n] is (the loop is
    followed for at least [n] iterations); forcing the result again, or any
    value that is not a thunk, returns that value itself and calls nothing. *)
Theorem unthunkVariant_forces_chain
    (fuel : nat) (a : any) (w : world) (n : nat) (v : any) (w' : world) :
  thunk_chain prog a w n v w' ->
  (n <= fuel)%nat ->
  unthunkVariant prog fuel a w = Done v w' /\
  tag v <> Tag.Thunk /\
  unthunkVariant prog fuel v w' = Done v w' /\
  (forall b w1, tag b <> Tag.Thunk -> unthunkVariant prog fuel b w1 = Done b w1).
Proof.
  intros Hchain Hfuel. unfold unthunkVariant.
  pose proof (thunk_chain_end _ _ _ _ _ Hchain) as Hv.
  split; [by eapply unthunkVariant_loop_chain|].
  split; [assumption|].
  split; [by apply unthunkVariant_loop_forced|].
  intros b w1 Hb. by apply unthunkVariant_loop_forced.
Qed.

End Forcing.

Lemma demo_chain :
  thunk_chain demo (any_thunk 1%N) w0 2 (any_int 42)
    (World ∅ [CallThunk 1%N; CallThunk 2%N]).
Proof.
  eapply chain_step; [reflexivity|].
  eapply chain_step; [reflexivity|].
  apply chain_end. discriminate.
Qed.

Lemma unthunkVariant_forces_chain_witness :
  let w2 := World ∅ [CallThunk 1%N; CallThunk 2%N] in
  thunk_chain demo (any_thunk 1%N) w0 2 (any_int 42) w2 /\
  (2 <= 5)%nat /\
  unthunkVariant demo 5 (any_thunk 1%N) w0 = Done (any_int 42) w2 /\
  tag (any_int 42) <> Tag.Thunk /\
  unthunkVariant demo 5 (any_int 42) w2 = Done (any_int 42) w2 /\
  (forall b w1, tag b <> Tag.Thunk -> unthunkVariant demo 5 b w1 = Done b w1).
Proof.
  split; [exact demo_chain|].
  split; [lia|].
  apply (unthunkVariant_forces_chain demo 5 (any_thunk 1%N) w0 2 (any_int 42)
           (World ∅ [CallThunk 1%N; CallThunk 2%N]) demo_chain).
  lia.
Defined.

Section Extraction.

Variable cfg : config.
Variable prog : program.
Variable fuel : nat.

Lemma assert_true (text : string) (w : world) :
  assert_ cfg true text w = Done tt w.
Proof. unfold assert_. by destruct (DEBUG cfg). Qed.

Lemma assert_false_debug (text : string) (w : world) :
  DEBUG cfg = true -> assert_ cfg false text w = AssertionFailed text.
Proof. unfold assert_. by intros ->. Qed.

Lemma assert_release (c : bool) (text : string) (w : world) :
  DEBUG cfg = false -> assert_ cfg c text w = Done tt w.
Proof. unfold assert_. by intros ->. Qed.

(** The operators written with [RETURN_VALUE] assert the tag of the forced
    variant: when forcing ends in [v], a matching tag gives the accessor's
    result, and a debug build aborts on any other tag. *)
Lemma RETURN_VALUE_forced {A} (TYPE : Tag.t) (ACCESSOR : any -> M A)
    (self v : any) (w w1 : world) :
  unthunkVariant prog fuel self w = Done v w1 ->
  (tag v = TYPE ->
   RETURN_VALUE cfg prog fuel TYPE ACCESSOR self w = ACCESSOR v w1) /\
  (tag v <> TYPE -> DEBUG cfg = true ->
   RETURN_VALUE cfg prog fuel TYPE ACCESSOR self w
     = AssertionFailed "variant.type == TYPE").
Proof.
  intros Hforce. unfold RETURN_VALUE. run. rewrite Hforce. split.
  - intros <-. rewrite tag_eqb_refl, assert_true. reflexivity.
  - intros Hne Hdbg. apply tag_eqb_neq in Hne. rewrite Hne.
    rewrite assert_false_debug by assumption. reflexivity.
Qed.

(** C2. [rawPointer] asserts the tag of the value it is called on, not of
    the forced variant: on a thunk that resolves to a raw pointer a debug
    build aborts, where a release build returns the pointer. *)
Theorem rawPointer_asserts_outer_tag (t : thunk) (u : rawptr) (w w1 : world) :
  unthunkVariant prog fuel (any_thunk t) w = Done (any_rawptr u) w1 ->
  (DEBUG cfg = true ->
   rawPointer cfg prog fuel (any_thunk t) w = AssertionFailed "tag == Tag::RawPointer") /\
  (DEBUG cfg = false ->
   rawPointer cfg prog fuel (any_thunk t) w = Done u w1).
Proof.
  intros Hforce. unfold rawPointer. run. rewrite Hforce. simpl. split; intros Hdbg.
  - rewrite assert_false_debug by assumption. reflexivity.
  - rewrite assert_release by assumption. reflexivity.
Qed.

End Extraction.

Lemma rawPointer_asserts_outer_tag_witness :
  unthunkVariant demo 3 (any_thunk 3%N) w0
    = Done (any_rawptr 0%N) (World ∅ [CallThunk 3%N]) /\
  rawPointer debug_build demo 3 (any_thunk 3%N) w0
    = AssertionFailed "tag == Tag::RawPointer".
Proof.
  split; [reflexivity|].
  apply (rawPointer_asserts_outer_tag debug_build demo 3 3%N 0%N w0
           (World ∅ [CallThunk 3%N])); reflexivity.
Defined.

Section Operators.

Variable cfg : config.
Variable prog : program.
Variable fuel : nat.

Lemma unthunkVariant_forced (a : any) (w : world) :
  tag a <> Tag.Thunk -> unthunkVariant prog fuel a w = Done a w.
Proof. apply unthunkVariant_loop_forced. Qed.

Lemma strcmp_refl (s : string) : strcmp s s = 0.
Proof.
  induction s as [|c s IH]; simpl; [reflexivity|].
  rewrite Z.eqb_refl. simpl. destruct (uchar c =? 0); [reflexivity | exact IH].
Qed.

Lemma string_of_heap (l : loc) (n : nat) (s : string) (w : world) :
  heap w !! l = Some (Cell n (OString s)) ->
  string_of (Any Tag.String (U_s (Some l))) w = Done s w.
Proof. intros Hl. unfold string_of, deref, get_heap. run. by rewrite Hl. Qed.

Lemma chars_of_holds (w : world) (a : any) (s : string) :
  holds_chars w a s -> chars_of a w = Done s w.
Proof.
  intros [-> | (l & n & -> & Hl)]; unfold chars_of; simpl; [reflexivity|].
  by eapply string_of_heap.
Qed.

Lemma holds_chars_tag (w : world) (a : any) (s : string) :
  holds_chars w a s -> is_string_tag (tag a) = true /\ tag a <> Tag.Thunk.
Proof. intros [-> | (l & n & -> & Hl)]; split; (reflexivity || discriminate). Qed.

(** C4. Two string-tagged values, each a [StringLiteral] or an owned
    [String] in either order, are compared by their characters: every
    comparison operator returns what [strcmp] of the contents gives against
    zero, so equal contents are [==], [<=] and [>=] and are not [!=], [<]
    or [>]. *)
Theorem operator_cmp_strings_by_content
    (op : cmp_op) (a b : any) (s1 s2 : string) (w : world) :
  holds_chars w a s1 ->
  holds_chars w b s2 ->
  operator_cmp cfg prog fuel op a b w = Done (cmpZ op (strcmp s1 s2) 0) w /\
  (s1 = s2 ->
   operator_cmp cfg prog fuel op a b w
     = Done (match op with OpEq | OpLe | OpGe => true | _ => false end) w).
Proof.
  intros Ha Hb.
  assert (operator_cmp cfg prog fuel op a b w = Done (cmpZ op (strcmp s1 s2) 0) w) as Hcmp.
  { destruct (holds_chars_tag _ _ _ Ha) as [Hta Hna].
    destruct (holds_chars_tag _ _ _ Hb) as [Htb Hnb].
    pose proof (chars_of_holds _ _ _ Hb) as Hcb.
    unfold operator_cmp. run.
    rewrite (unthunkVariant_forced a w Hna), (unthunkVariant_forced b w Hnb).
    destruct Ha as [-> | (l & n & -> & Hl)]; simpl.
    - rewrite assert_true, Htb, assert_true, Hcb. reflexivity.
    - rewrite assert_true, Htb, assert_true.
      rewrite (string_of_heap _ _ _ _ Hl), Hcb. reflexivity. }
  split; [exact Hcmp|].
  intros ->. rewrite Hcmp, strcmp_refl. by destruct op.
Qed.

(** C3. With assertions enabled, the comparison operators and [+] applied
    to an Integer and a Double do not abort: their assertion tests the left
    tag against the case already selected, and the right operand is read
    through the member of the left tag.  [-], [*], [/] and [%] do assert
    [lhs.type == rhs.type] and abort. *)
Theorem cmp_and_plus_accept_mismatched_tags
    (gc : bool) (op : cmp_op) (x : Z) (d : float) (w : world) :
  let dbg := Config true gc in
  operator_cmp dbg prog fuel op (any_int x) (any_double d) w = UndefinedBehaviour /\
  operator_plus dbg prog fuel (any_int x) (any_double d) w = UndefinedBehaviour /\
  operator_minus dbg prog fuel (any_int x) (any_double d) w
    = AssertionFailed "lhs.type == rhs.type" /\
  operator_times dbg prog fuel (any_int x) (any_double d) w
    = AssertionFailed "lhs.type == rhs.type" /\
  operator_div dbg prog fuel (any_int x) (any_double d) w
    = AssertionFailed "lhs.type == rhs.type" /\
  operator_mod dbg prog fuel (any_int x) (any_double d) w
    = AssertionFailed "lhs.type == rhs.type".
Proof.
  simpl.
  unfold operator_cmp, operator_plus, operator_minus, operator_times,
    operator_div, operator_mod, unthunkVariant.
  run.
  rewrite !unthunkVariant_loop_forced by discriminate.
  repeat split; reflexivity.
Qed.

End Operators.

Lemma operator_cmp_strings_by_content_witness :
  holds_chars demo_world (any_literal "abc") "abc" /\
  holds_chars demo_world (Any Tag.String (U_s (Some 1%positive))) "abc" /\
  operator_cmp debug_build demo 0 OpEq
    (any_literal "abc") (Any Tag.String (U_s (Some 1%positive))) demo_world
    = Done true demo_world /\
  operator_cmp debug_build demo 0 OpLt
    (Any Tag.String (U_s (Some 1%positive))) (any_literal "abc") demo_world
    = Done false demo_world.
Proof.
  assert (holds_chars demo_world (any_literal "abc") "abc") as Hlit
    by (left; reflexivity).
  assert (holds_chars demo_world (Any Tag.String (U_s (Some 1%positive))) "abc") as Hown
    by (right; exists 1%positive, 1%nat; split; reflexivity).
  split; [exact Hlit|]. split; [exact Hown|]. split.
  - apply (operator_cmp_strings_by_content debug_build demo 0 OpEq _ _ "abc" "abc"
             demo_world Hlit Hown). reflexivity.
  - apply (operator_cmp_strings_by_content debug_build demo 0 OpLt _ _ "abc" "abc"
             demo_world Hown Hlit). reflexivity.
Defined.

Section Lookup.

Variable cfg : config.
Variable prog : program.
Variable fuel : nat.

Lemma scan_layout (key : Symbol) (v : any) (entries : list map_pair) :
  entries <> [] ->
  Forall (fun p => fst p <> nullsym) entries ->
  scan key (entries ++ [(nullsym, v)])
    = match assoc key entries with Some x => Found x | None => NotFound end.
Proof.
  induction entries as [|p rest IH]; intros Hne Hkeys; [done|].
  simpl. destruct (N.eqb (fst p) key); [reflexivity|].
  destruct rest as [|q rest']; [reflexivity|].
  apply Forall_cons in Hkeys as [_ Hrest].
  pose proof Hrest as Hq. apply Forall_cons in Hq as [Hq _].
  change ((q :: rest') ++ [(nullsym, v)]) with (q :: (rest' ++ [(nullsym, v)])).
  cbv iota beta. apply N.eqb_neq in Hq. rewrite Hq.
  change (q :: (rest' ++ [(nullsym, v)])) with ((q :: rest') ++ [(nullsym, v)]).
  by apply IH.
Qed.

Lemma assoc_present (key : Symbol) (v : any) (entries : list map_pair) :
  NoDup (map fst entries) -> (key, v) ∈ entries -> assoc key entries = Some v.
Proof.
  induction entries as [|p rest IH]; intros Hnd Hin; [by apply elem_of_nil in Hin|].
  simpl in Hnd. apply NoDup_cons in Hnd as [Hfresh Hnd].
  apply elem_of_cons in Hin as [<- | Hin]; simpl.
  - by rewrite N.eqb_refl.
  - destruct (N.eqb_spec (fst p) key) as [Heq | _]; [|by apply IH].
    exfalso. apply Hfresh. rewrite Heq.
    apply (list_elem_of_fmap_2 fst) in Hin. exact Hin.
Qed.

Lemma assoc_absent (key : Symbol) (entries : list map_pair) :
  key ∉ map fst entries -> assoc key entries = None.
Proof.
  induction entries as [|p rest IH]; intros Hnot; [reflexivity|].
  simpl in *. apply not_elem_of_cons in Hnot as [Hne Hnot].
  destruct (N.eqb_spec (fst p) key) as [Heq | _]; [by rewrite Heq in Hne|].
  by apply IH.
Qed.

Lemma assoc_is_Some (key : Symbol) (entries : list map_pair) :
  key ∈ map fst entries -> is_Some (assoc key entries).
Proof.
  induction entries as [|p rest IH]; intros Hin; [by apply elem_of_nil in Hin|].
  simpl in *. destruct (N.eqb_spec (fst p) key) as [_ | Hne]; [by eexists|].
  apply elem_of_cons in Hin as [Heq | Hin]; [by rewrite Heq in Hne|].
  by apply IH.
Qed.

Lemma cast_map_is_map (w : world) (a : any) (m : list map_pair) :
  is_map w a m -> cast_map cfg prog fuel a w = Done m w.
Proof.
  intros (l & n & -> & Hl).
  unfold cast_map, extractPointer, RETURN_VALUE, unthunkVariant. run.
  rewrite unthunkVariant_loop_forced by discriminate.
  rewrite tag_eqb_refl, assert_true. simpl.
  unfold get_heap. run. by rewrite Hl.
Qed.

(** C5. On a Map-tagged value laid out as the generated code lays maps out,
    lookup by symbol returns the value paired with the key when the key is
    present, and is a failed assertion ("map key not found") in a debug
    build when it is absent; [contains] never fails and returns [true]
    exactly for the keys that are present. *)
Theorem symbol_lookup_and_contains
    (a : any) (m entries : list map_pair) (key : Symbol) (w : world) :
  is_map w a m ->
  map_layout m entries ->
  (forall v, (key, v) ∈ entries ->
     operator_index_symbol cfg prog fuel a key w = Done v w) /\
  (key ∉ map fst entries -> DEBUG cfg = true ->
     operator_index_symbol cfg prog fuel a key w
       = AssertionFailed "map key not found") /\
  contains cfg prog fuel a key w = Done (bool_decide (key ∈ map fst entries)) w.
Proof.
  intros Hmap [Hne Hkeys Hnd [s ->]].
  pose proof (cast_map_is_map _ _ _ Hmap) as Hcast.
  pose proof (scan_layout key s entries Hne Hkeys) as Hscan.
  unfold operator_index_symbol, contains. run. rewrite Hcast, Hscan.
  split; [|split].
  - intros v Hin. by rewrite (assoc_present _ _ _ Hnd Hin).
  - intros Hnot Hdbg. rewrite (assoc_absent _ _ Hnot).
    by rewrite assert_false_debug.
  - destruct (decide (key ∈ map fst entries)) as [Hin | Hnot].
    + rewrite bool_decide_eq_true_2 by assumption.
      by destruct (assoc_is_Some _ _ Hin) as [x ->].
    + rewrite bool_decide_eq_false_2 by assumption.
      by rewrite (assoc_absent _ _ Hnot).
Qed.

End Lookup.

Lemma demo_layout : map_layout demo_map demo_entries.
Proof.
  split.
  - discriminate.
  - repeat constructor; discriminate.
  - simpl. apply NoDup_cons. split; [|apply NoDup_singleton].
    intros Hin. apply list_elem_of_singleton in Hin. discriminate.
  - by exists any_nullptr.
Qed.

Lemma demo_is_map : is_map demo_world (Any Tag.Map (U_p (Some 2%positive))) demo_map.
Proof. exists 2%positive, 1%nat. split; reflexivity. Qed.

Lemma demo_absent : sym_z ∉ map fst demo_entries.
Proof.
  intros Hin. simpl in Hin.
  apply elem_of_cons in Hin as [Heq | Hin]; [discriminate|].
  apply list_elem_of_singleton in Hin. discriminate.
Qed.

Lemma symbol_lookup_and_contains_witness :
  let a := Any Tag.Map (U_p (Some 2%positive)) in
  is_map demo_world a demo_map /\
  map_layout demo_map demo_entries /\
  operator_index_symbol debug_build demo 0 a sym_y demo_world
    = Done (any_int 2) demo_world /\
  contains debug_build demo 0 a sym_y demo_world
    = Done (bool_decide (sym_y ∈ map fst demo_entries)) demo_world /\
  operator_index_symbol debug_build demo 0 a sym_z demo_world
    = AssertionFailed "map key not found" /\
  contains debug_build demo 0 a sym_z demo_world
    = Done (bool_decide (sym_z ∈ map fst demo_entries)) demo_world.
Proof.
  split; [exact demo_is_map|]. split; [exact demo_layout|].
  destruct (symbol_lookup_and_contains debug_build demo 0 _ _ _ sym_y demo_world
              demo_is_map demo_layout) as (Hfound & _ & Hcontains).
  destruct (symbol_lookup_and_contains debug_build demo 0 _ _ _ sym_z demo_world
              demo_is_map demo_layout) as (_ & Hmissing & Hcontains').
  split; [|split; [exact Hcontains|split; [|exact Hcontains']]].
  - apply Hfound. apply elem_of_cons. right. apply elem_of_cons. by left.
  - apply Hmissing; [exact demo_absent | reflexivity].
Defined.

Section Negate.

Variable cfg : config.
Variable prog : program.
Variable fuel : nat.

(** C6, as the code has it. Unary negate is defined for exactly the tags
    Integer and Double of the forced operand: an Integer whose negation is
    an [int] gives the negated Integer, a Double the negated Double, and any
    other tag, Character included, is a failed assertion in a debug build. *)
Theorem operator_negate_integer_or_double (self v : any) (w w1 : world) :
  unthunkVariant prog fuel self w = Done v w1 ->
  (forall i, v = any_int i -> in_int (- i) = true ->
     operator_negate cfg prog fuel self w = Done (any_int (- i)) w1) /\
  (forall d, v = any_double d ->
     operator_negate cfg prog fuel self w = Done (any_double (PrimFloat.opp d)) w1) /\
  (tag v <> Tag.Integer -> tag v <> Tag.Double -> DEBUG cfg = true ->
     operator_negate cfg prog fuel self w
       = AssertionFailed "Unsupported type for unary '-' operator").
Proof.
  intros Hforce. unfold operator_negate. run. rewrite Hforce.
  split; [|split].
  - intros i -> Hrange. simpl. unfold int_result. by rewrite Hrange.
  - by intros d ->.
  - intros Hi Hd Hdbg.
    destruct (tag v); try done; by rewrite assert_false_debug.
Qed.

End Negate.

(** C6 as stated fails: negating the Character 'a' in a debug build is a
    failed assertion, not the negated character. *)
Lemma operator_negate_character_aborts :
  operator_negate debug_build demo 0 (any_char 97) w0
    = AssertionFailed "Unsupported type for unary '-' operator" /\
  ~ (exists w', operator_negate debug_build demo 0 (any_char 97) w0
                  = Done (any_char (-97)) w').
Proof.
  split; [reflexivity|]. intros [w' Hw']. discriminate Hw'.
Qed.

Lemma operator_negate_integer_or_double_witness :
  unthunkVariant demo 2 (any_thunk 1%N) w0
    = Done (any_int 42) (World ∅ [CallThunk 1%N; CallThunk 2%N]) /\
  in_int (- 42) = true /\
  operator_negate debug_build demo 2 (any_thunk 1%N) w0
    = Done (any_int (- 42)) (World ∅ [CallThunk 1%N; CallThunk 2%N]).
Proof.
  split; [reflexivity|]. split; [reflexivity|].
  exact (proj1 (operator_negate_integer_or_double debug_build demo 2
                  (any_thunk 1%N) (any_int 42) w0
                  (World ∅ [CallThunk 1%N; CallThunk 2%N]) eq_refl)
           42 eq_refl eq_refl).
Defined.

Section RoundTrip.

Variable cfg : config.
Variable prog : program.
Variable fuel : nat.

Lemma make_managed_deref (o : object) (w : world) :
  exists l, make_managed o w
              = Done (Some l) (World (<[l := Cell 1 o]> (heap w)) (trace w)) /\
            heap w !! l = None.
Proof.
  exists (fresh (dom (heap w))). split; [reflexivity|].
  apply not_elem_of_dom. apply is_fresh.
Qed.

(** C7. For each of int, double, char, bool, string literal, owned string,
    array and raw pointer, constructing a value and extracting the same type
    at once returns the native value that went in; the constructors that
    allocate leave the trace of calls as it was. *)
Theorem construct_then_extract
    (i : Z) (d : float) (c : Z) (b : bool) (r : cstring) (s : string)
    (xs : list any) (u : rawptr) (w : world) :
  operator_int cfg prog fuel (any_int i) w = Done i w /\
  operator_double cfg prog fuel (any_double d) w = Done d w /\
  operator_char cfg prog fuel (any_char c) w = Done c w /\
  operator_bool cfg prog fuel (any_bool b) w = Done b w /\
  operator_cstring cfg prog fuel (any_literal r) w = Done r w /\
  (exists w', (any_string s ≫= operator_cstring cfg prog fuel) w = Done s w' /\
              trace w' = trace w) /\
  (exists w', (any_array xs ≫= operator_array cfg prog fuel) w = Done xs w' /\
              trace w' = trace w) /\
  rawPointer cfg prog fuel (any_rawptr u) w = Done u w.
Proof.
  unfold operator_int, operator_double, operator_char, operator_bool,
    operator_cstring, operator_array, rawPointer, RETURN_VALUE, unthunkVariant.
  repeat split;
    try (run; rewrite unthunkVariant_loop_forced by discriminate;
         simpl; rewrite ?assert_true; reflexivity).
  - destruct (make_managed_deref (OString s) w) as (l & Hmk & _).
    eexists. unfold any_string, mbind, M_bind. rewrite Hmk. run.
    rewrite unthunkVariant_loop_forced by discriminate. simpl.
    rewrite assert_true. unfold string_of, get_heap. run.
    rewrite lookup_insert_eq. simpl. split; reflexivity.
  - destruct (make_managed_deref (OArray xs) w) as (l & Hmk & _).
    eexists. unfold any_array, mbind, M_bind. rewrite Hmk. run.
    rewrite unthunkVariant_loop_forced by discriminate. simpl.
    rewrite assert_true. unfold array_of, get_heap. run.
    rewrite lookup_insert_eq. simpl. split; reflexivity.
Qed.

End RoundTrip.

Section Invocation.

Variable cfg : config.
Variable prog : program.
Variable fuel : nat.

(** C8. Invocation forces the value first.  With one argument, a forced
    Closure is called through the stored callable and a forced Function
    through its code pointer; with no argument the same holds of EffClosure
    and EffFunction; any other forced tag is a failed assertion in a debug
    build. *)
Theorem invocation_dispatch (self arg v : any) (w w1 : world) :
  unthunkVariant prog fuel self w = Done v w1 ->
  (forall l n lam,
     v = Any Tag.Closure (U_l (Some l)) ->
     heap w1 !! l = Some (Cell n (OClosure lam)) ->
     operator_call cfg prog fuel self arg w
       = lambda_code prog lam arg (World (heap w1) (trace w1 ++ [CallClosure lam arg]))) /\
  (forall f,
     v = any_fn f ->
     operator_call cfg prog fuel self arg w
       = fn_code prog f arg (World (heap w1) (trace w1 ++ [CallFn f arg]))) /\
  (tag v <> Tag.Closure -> tag v <> Tag.Function -> DEBUG cfg = true ->
     operator_call cfg prog fuel self arg w
       = AssertionFailed "variant.type == Type::Function") /\
  (forall k n lam,
     v = Any Tag.EffClosure (U_k (Some k)) ->
     heap w1 !! k = Some (Cell n (OEffClosure lam)) ->
     operator_call_eff cfg prog fuel self w
       = eff_lambda_code prog lam (World (heap w1) (trace w1 ++ [CallEffClosure lam]))) /\
  (forall e,
     v = any_eff_fn e ->
     operator_call_eff cfg prog fuel self w
       = eff_fn_code prog e (World (heap w1) (trace w1 ++ [CallEffFn e]))) /\
  (tag v <> Tag.EffClosure -> tag v <> Tag.EffFunction -> DEBUG cfg = true ->
     operator_call_eff cfg prog fuel self w
       = AssertionFailed "variant.type == Type::EffFunction").
Proof.
  intros Hforce. unfold operator_call, operator_call_eff, call_closure,
    call_eff_closure, deref. run. rewrite Hforce.
  repeat split.
  - intros l n lam -> Hl. simpl. by rewrite Hl.
  - intros f ->. simpl. by rewrite assert_true.
  - intros Hc Hf Hdbg. apply tag_eqb_neq in Hc, Hf. rewrite Hc, Hf.
    by rewrite assert_false_debug.
  - intros k n lam -> Hk. simpl. by rewrite Hk.
  - intros e ->. simpl. by rewrite assert_true.
  - intros Hc Hf Hdbg. apply tag_eqb_neq in Hc, Hf. rewrite Hc, Hf.
    by rewrite assert_false_debug.
Qed.

End Invocation.

Lemma invocation_dispatch_witness :
  unthunkVariant demo 1 (any_thunk 4%N) demo_world
    = Done (any_fn 1%N) (World (heap demo_world) [CallThunk 4%N]) /\
  operator_call debug_build demo 1 (any_thunk 4%N) (any_int 5) demo_world
    = Done (any_int 5)
        (World (heap demo_world) [CallThunk 4%N; CallFn 1%N (any_int 5)]) /\
  operator_call debug_build demo 1 (Any Tag.Closure (U_l (Some 3%positive)))
      (any_int 5) demo_world
    = Done (any_int 6) (World (heap demo_world) [CallClosure 1%N (any_int 5)]).
Proof.
  split; [reflexivity|]. split.
  - exact (proj1 (proj2 (invocation_dispatch debug_build demo 1 (any_thunk 4%N)
                           (any_int 5) (any_fn 1%N) demo_world
                           (World (heap demo_world) [CallThunk 4%N]) eq_refl))
             1%N eq_refl).
  - exact (proj1 (invocation_dispatch debug_build demo 1
                    (Any Tag.Closure (U_l (Some 3%positive)))
                    (any_int 5) (Any Tag.Closure (U_l (Some 3%positive)))
                    demo_world demo_world eq_refl)
             3%positive 1%nat 1%N eq_refl eq_refl).
Defined.

Section Laziness.

Variable cfg : config.
Variable fuel : nat.

Lemma keeps_trace_ret {A} (a : A) : keeps_trace (mret a).
Proof. intros w b w1 H. by inversion H. Qed.

Lemma keeps_trace_stuck {A} (m : M A) :
  (forall w a w1, m w <> Done a w1) -> keeps_trace m.
Proof. intros Hm w a w1 H. by apply Hm in H. Qed.

Lemma keeps_trace_bind {A B} (m : M A) (f : A -> M B) :
  keeps_trace m -> (forall a, keeps_trace (f a)) -> keeps_trace (m ≫= f).
Proof.
  intros Hm Hf w b w1 H. unfold mbind, M_bind in H.
  destruct (m w) as [a w2| | |] eqn:Hmw; try done.
  rewrite (Hf _ _ _ _ H). by eapply Hm.
Qed.

Lemma keeps_trace_get_heap : keeps_trace get_heap.
Proof. intros w a w1 H. by inversion H. Qed.

Lemma keeps_trace_put_heap (h : gmap loc cell) : keeps_trace (put_heap h).
Proof. intros w a w1 H. by inversion H. Qed.

Lemma keeps_trace_owned_handle (a : any) : keeps_trace (owned_handle a).
Proof.
  unfold owned_handle, get_s, get_a, get_l, get_k, get_p.
  destruct (tag a), (un a); (apply keeps_trace_ret || by apply keeps_trace_stuck).
Qed.

Lemma keeps_trace_for_each {A} (f : A -> M unit) (l : list A) :
  (forall x, keeps_trace (f x)) -> keeps_trace (for_each f l).
Proof.
  intros Hf. induction l as [|x l IH]; simpl.
  - apply keeps_trace_ret.
  - apply keeps_trace_bind; [apply Hf | intros _; exact IH].
Qed.

Lemma keeps_trace_managed_release (n : nat) (m : managed) :
  keeps_trace (managed_release n m).
Proof.
  revert m. induction n as [|n IH]; intros [l|]; simpl;
    try apply keeps_trace_ret;
    (apply keeps_trace_bind; [apply keeps_trace_get_heap | intros h]);
    (destruct (h !! l) as [c|]; [|by apply keeps_trace_stuck]);
    (destruct (refs c) as [|[|k]]; try apply keeps_trace_put_heap);
    (apply keeps_trace_bind; [apply keeps_trace_put_heap | intros _]);
    (destruct (children (obj c)) as [|x xs]; [apply keeps_trace_ret|]).
  - by apply keeps_trace_stuck.
  - by apply keeps_trace_stuck.
  - apply (keeps_trace_for_each (fun y => owned_handle y ≫= managed_release n) (x :: xs)).
    intros y. apply keeps_trace_bind; [apply keeps_trace_owned_handle | apply IH].
  - apply (keeps_trace_for_each (fun y => owned_handle y ≫= managed_release n) (x :: xs)).
    intros y. apply keeps_trace_bind; [apply keeps_trace_owned_handle | apply IH].
Qed.

Lemma destruct_trace (self : any) (w w1 : world) :
  destruct fuel self w = Done tt w1 -> trace w1 = trace w.
Proof.
  apply (keeps_trace_bind (owned_handle self) (managed_release fuel)).
  - apply keeps_trace_owned_handle.
  - intros m. apply keeps_trace_managed_release.
Qed.

(** C9. Copying, moving or assigning a Thunk-tagged value does not force
    it: the result is tagged Thunk and holds the same thunk pointer, and no
    callable is called (the trace of calls is as before), in both ownership
    modes; an assignment only destroys the previous payload of its target
    first. *)
Theorem copy_move_assign_keep_thunk (t : thunk) (self : any) (w : world) :
  copy_construct cfg (any_thunk t) w = Done (any_thunk t) w /\
  move_construct cfg (any_thunk t) w = Done (any_thunk t) w /\
  (USE_GC cfg = true ->
     operator_assign cfg fuel self (any_thunk t) w = Done (any_thunk t) w /\
     operator_assign_move cfg fuel self (any_thunk t) w = Done (any_thunk t) w) /\
  (forall w1, USE_GC cfg = false -> destruct fuel self w = Done tt w1 ->
     operator_assign cfg fuel self (any_thunk t) w = Done (any_thunk t) w1 /\
     operator_assign_move cfg fuel self (any_thunk t) w = Done (any_thunk t) w1 /\
     trace w1 = trace w).
Proof.
  unfold copy_construct, move_construct, operator_assign, operator_assign_move.
  split; [by destruct (USE_GC cfg)|].
  split; [by destruct (USE_GC cfg)|].
  split.
  - intros ->. by split.
  - intros w1 -> Hd. unfold mbind, M_bind. rewrite Hd. simpl.
    repeat split. by eapply destruct_trace.
Qed.

End Laziness.

Lemma copy_move_assign_keep_thunk_witness :
  let self := Any Tag.String (U_s (Some 1%positive)) in
  let w1 := World (delete 1%positive (heap demo_world)) [] in
  USE_GC release_build = false /\
  destruct 1 self demo_world = Done tt w1 /\
  operator_assign release_build 1 self (any_thunk 1%N) demo_world
    = Done (any_thunk 1%N) w1 /\
  operator_assign_move release_build 1 self (any_thunk 1%N) demo_world
    = Done (any_thunk 1%N) w1 /\
  trace w1 = trace demo_world.
Proof.
  split; [reflexivity|]. split; [reflexivity|].
  exact (proj2 (proj2 (proj2 (copy_move_assign_keep_thunk release_build 1 1%N
                                (Any Tag.String (U_s (Some 1%positive)))
                                demo_world)))
           (World (delete 1%positive (heap demo_world)) []) eq_refl eq_refl).
Defined.

Section Division.

Variable cfg : config.
Variable prog : program.
Variable fuel : nat.

(** C10. Integer [/] and [%] carry no check of the divisor in either
    build: with a nonzero divisor (and a quotient that is an [int]) they
    return the truncated quotient and its remainder; with a zero divisor
    the native operation is reached, no assertion stops it, and the result
    is undefined. *)
Theorem integer_division_unguarded (x y : Z) (w : world) :
  (y <> 0 -> in_int (Z.quot x y) = true ->
     operator_div cfg prog fuel (any_int x) (any_int y) w
       = Done (any_int (Z.quot x y)) w /\
     operator_mod cfg prog fuel (any_int x) (any_int y) w
       = Done (any_int (Z.rem x y)) w) /\
  operator_div cfg prog fuel (any_int x) (any_int 0) w = UndefinedBehaviour /\
  operator_mod cfg prog fuel (any_int x) (any_int 0) w = UndefinedBehaviour.
Proof.
  unfold operator_div, operator_mod, unthunkVariant, int_div, int_rem, int_result.
  run. rewrite !unthunkVariant_loop_forced by discriminate. simpl.
  rewrite !assert_true. simpl.
  split; [|split; reflexivity].
  intros Hy Hq. apply Z.eqb_neq in Hy. rewrite Hy, Hq. split; reflexivity.
Qed.

End Division.

Lemma integer_division_unguarded_witness :
  7 <> 0 /\ 2 <> 0 /\ in_int (Z.quot 7 2) = true /\
  operator_div debug_build demo 0 (any_int 7) (any_int 2) w0 = Done (any_int 3) w0 /\
  operator_mod debug_build demo 0 (any_int 7) (any_int 2) w0 = Done (any_int 1) w0 /\
  operator_div debug_build demo 0 (any_int 7) (any_int 0) w0 = UndefinedBehaviour /\
  operator_div release_build demo 0 (any_int 7) (any_int 0) w0 = UndefinedBehaviour.
Proof.
  split; [discriminate|]. split; [discriminate|]. split; [reflexivity|].
  pose proof (integer_division_unguarded debug_build demo 0 7 2 w0) as [Hq [Hz _]].
  pose proof (integer_division_unguarded release_build demo 0 7 2 w0) as [_ [Hr _]].
  destruct Hq as [Hdiv Hmod]; [discriminate | reflexivity |].
  repeat split; assumption.
Defined.

(** ** Concrete runs *)

Example plus_3_4 :
  (operator_plus debug_build demo 0 (any_int 3) (any_int 4)
     ≫= operator_int debug_build demo 0) w0 = Done 7 w0.
Proof. reflexivity. Qed.

Example less_3_4 :
  operator_cmp debug_build demo 0 OpLt (any_int 3) (any_int 4) w0 = Done true w0.
Proof. reflexivity. Qed.

Example div_7_2 :
  operator_div release_build demo 0 (any_int 7) (any_int 2) w0 = Done (any_int 3) w0 /\
  operator_mod release_build demo 0 (any_int 7) (any_int 2) w0 = Done (any_int 1) w0.
Proof. split; reflexivity. Qed.

Example double_sum :
  operator_plus debug_build demo 0 (any_double 1.5) (any_double 2.5) w0
    = Done (any_double 4) w0.
Proof. reflexivity. Qed.

Example char_a_less_b :
  operator_cmp debug_build demo 0 OpLt (any_char 97) (any_char 98) w0 = Done true w0.
Proof. reflexivity. Qed.

Example map_y :
  (operator_index_symbol debug_build demo 0 (Any Tag.Map (U_p (Some 2%positive))) sym_y
     ≫= operator_int debug_build demo 0) demo_world = Done 2 demo_world.
Proof. reflexivity. Qed.

Example map_contains_z :
  contains debug_build demo 0 (Any Tag.Map (U_p (Some 2%positive))) sym_z demo_world
    = Done false demo_world.
Proof. reflexivity. Qed.

Example literal_plus_owned :
  (operator_plus debug_build demo 0 (any_literal "x-")
       (Any Tag.String (U_s (Some 1%positive)))
     ≫= operator_cstring debug_build demo 0) demo_world
    = Done "x-abc"
        (World (<[5%positive := Cell 1 (OString "x-abc")]> (heap demo_world)) []).
Proof. vm_compute. reflexivity. Qed.

Example forced_thunk_negated :
  operator_negate release_build demo 2 (any_thunk 1%N) w0
    = Done (any_int (-42)) (World ∅ [CallThunk 1%N; CallThunk 2%N]).
Proof. reflexivity. Qed.

(** ** Further properties of forcing *)

Section ForcingMore.

Variable cfg : config.
Variable prog : program.
Variable fuel : nat.

Lemma unthunkVariant_loop_result (n : nat) (a v : any) (w w1 : world) :
  unthunkVariant_loop prog n a w = Done v w1 -> tag v <> Tag.Thunk.
Proof.
  revert a w. induction n as [|n IH]; intros a w; simpl;
    destruct (Tag.eqb (tag a) Tag.Thunk) eqn:Ht.
  - discriminate.
  - intros H. inversion H; subst. by apply tag_eqb_neq.
  - unfold mbind, M_bind.
    destruct (get_t a w) as [t w2| | |]; try discriminate.
    destruct (call_thunk prog t w2) as [a' w3| | |]; try discriminate.
    apply IH.
  - intros H. inversion H; subst. by apply tag_eqb_neq.
Qed.

(** X1. Whatever the value and the program, what [unthunkVariant] returns is
    never tagged Thunk, and forcing it again returns it with no further
    call. *)
Theorem unthunkVariant_result_is_forced (a v : any) (w w1 : world) :
  unthunkVariant prog fuel a w = Done v w1 ->
  tag v <> Tag.Thunk /\ unthunkVariant prog fuel v w1 = Done v w1.
Proof.
  intros H. apply unthunkVariant_loop_result in H.
  split; [exact H | by apply unthunkVariant_loop_forced].
Qed.

(** X2. The loop has no guard against cycles: a thunk whose call returns
    the same thunk is never forced, however long the loop is followed. *)
Theorem unthunkVariant_cycle_never_returns (t : thunk) (w : world) :
  (forall w1, exists w2, call_thunk prog t w1 = Done (any_thunk t) w2) ->
  unthunkVariant prog fuel (any_thunk t) w = OutOfFuel.
Proof.
  intros Hcycle. unfold unthunkVariant. revert w.
  induction fuel as [|n IH]; intros w; simpl; [reflexivity|].
  unfold mbind, M_bind. simpl.
  destruct (Hcycle w) as [w2 Hw2]. rewrite Hw2. apply IH.
Qed.

Lemma forced_twice (a v : any) (w w1 w2 : world) :
  unthunkVariant prog fuel a w = Done v w1 ->
  unthunkVariant prog fuel v w2 = Done v w2.
Proof.
  intros H. apply unthunkVariant_loop_result in H.
  by apply unthunkVariant_loop_forced.
Qed.

(** X3. The binary operators force both operands, the left one first: on
    operands that force to [va] and [vb] every comparison and every
    arithmetic operator does what it does on [va] and [vb] themselves. *)
Theorem binary_operators_force_operands
    (cop : cmp_op) (aop : arith_op) (a b va vb : any) (w w1 w2 : world) :
  unthunkVariant prog fuel a w = Done va w1 ->
  unthunkVariant prog fuel b w1 = Done vb w2 ->
  operator_cmp cfg prog fuel cop a b w = operator_cmp cfg prog fuel cop va vb w2 /\
  operator_arith cfg prog fuel aop a b w = operator_arith cfg prog fuel aop va vb w2.
Proof.
  intros Ha Hb.
  pose proof (forced_twice _ _ _ _ w2 Ha) as Hva.
  pose proof (forced_twice _ _ _ _ w2 Hb) as Hvb.
  split; [|destruct aop];
    unfold operator_arith, operator_cmp, operator_plus, operator_minus,
      operator_times, operator_div, operator_mod;
    unfold mbind at 1 2, M_bind; rewrite Ha, Hb;
    symmetry; unfold mbind at 1 2, M_bind; rewrite Hva, Hvb; reflexivity.
Qed.

(** X4. Extraction, negation, symbol lookup, array indexing and invocation
    force their operand: on a value that forces to [v] they do what they do
    on [v] itself.  ([rawPointer] is not among them.) *)
Theorem unary_operations_force_operand
    (a v arg : any) (key : Symbol) (i : nat) (w w1 : world) :
  unthunkVariant prog fuel a w = Done v w1 ->
  operator_int cfg prog fuel a w = operator_int cfg prog fuel v w1 /\
  operator_double cfg prog fuel a w = operator_double cfg prog fuel v w1 /\
  operator_bool cfg prog fuel a w = operator_bool cfg prog fuel v w1 /\
  operator_char cfg prog fuel a w = operator_char cfg prog fuel v w1 /\
  operator_cstring cfg prog fuel a w = operator_cstring cfg prog fuel v w1 /\
  operator_array cfg prog fuel a w = operator_array cfg prog fuel v w1 /\
  operator_negate cfg prog fuel a w = operator_negate cfg prog fuel v w1 /\
  operator_index_symbol cfg prog fuel a key w
    = operator_index_symbol cfg prog fuel v key w1 /\
  contains cfg prog fuel a key w = contains cfg prog fuel v key w1 /\
  operator_index cfg prog fuel a i w = operator_index cfg prog fuel v i w1 /\
  operator_call cfg prog fuel a arg w = operator_call cfg prog fuel v arg w1 /\
  operator_call_eff cfg prog fuel a w = operator_call_eff cfg prog fuel v w1.
Proof.
  intros Ha. pose proof (forced_twice _ _ _ _ w1 Ha) as Hv.
  repeat split;
    unfold operator_int, operator_double, operator_bool, operator_char,
      operator_cstring, operator_array, operator_negate, operator_index_symbol,
      contains, operator_index, operator_array, cast_map, extractPointer,
      operator_call, operator_call_eff, RETURN_VALUE;
    unfold mbind, M_bind; rewrite Ha, Hv; reflexivity.
Qed.

End ForcingMore.

Lemma unthunkVariant_result_is_forced_witness :
  unthunkVariant demo 2 (any_thunk 1%N) w0
    = Done (any_int 42) (World ∅ [CallThunk 1%N; CallThunk 2%N]) /\
  tag (any_int 42) <> Tag.Thunk /\
  unthunkVariant demo 2 (any_int 42) (World ∅ [CallThunk 1%N; CallThunk 2%N])
    = Done (any_int 42) (World ∅ [CallThunk 1%N; CallThunk 2%N]).
Proof.
  split; [reflexivity|].
  exact (unthunkVariant_result_is_forced demo 2 (any_thunk 1%N) (any_int 42) w0
           (World ∅ [CallThunk 1%N; CallThunk 2%N]) eq_refl).
Defined.

Lemma unthunkVariant_cycle_never_returns_witness :
  (forall w1, exists w2, call_thunk looping 1%N w1 = Done (any_thunk 1%N) w2) /\
  unthunkVariant looping 1000 (any_thunk 1%N) w0 = OutOfFuel.
Proof.
  assert (forall w1, exists w2, call_thunk looping 1%N w1 = Done (any_thunk 1%N) w2)
    as Hcycle by (intros w1; eexists; reflexivity).
  split; [exact Hcycle|].
  exact (unthunkVariant_cycle_never_returns looping 1000 1%N w0 Hcycle).
Defined.

Lemma binary_operators_force_operands_witness :
  unthunkVariant demo 2 (any_thunk 1%N) w0
    = Done (any_int 42) (World ∅ [CallThunk 1%N; CallThunk 2%N]) /\
  unthunkVariant demo 2 (any_thunk 2%N) (World ∅ [CallThunk 1%N; CallThunk 2%N])
    = Done (any_int 42) (World ∅ [CallThunk 1%N; CallThunk 2%N; CallThunk 2%N]) /\
  operator_cmp debug_build demo 2 OpEq (any_thunk 1%N) (any_thunk 2%N) w0
    = operator_cmp debug_build demo 2 OpEq (any_int 42) (any_int 42)
        (World ∅ [CallThunk 1%N; CallThunk 2%N; CallThunk 2%N]) /\
  operator_arith debug_build demo 2 OpAdd (any_thunk 1%N) (any_thunk 2%N) w0
    = operator_arith debug_build demo 2 OpAdd (any_int 42) (any_int 42)
        (World ∅ [CallThunk 1%N; CallThunk 2%N; CallThunk 2%N]).
Proof.
  split; [reflexivity|]. split; [reflexivity|].
  exact (binary_operators_force_operands debug_build demo 2 OpEq OpAdd
           (any_thunk 1%N) (any_thunk 2%N) (any_int 42) (any_int 42) w0
           (World ∅ [CallThunk 1%N; CallThunk 2%N])
           (World ∅ [CallThunk 1%N; CallThunk 2%N; CallThunk 2%N])
           eq_refl eq_refl).
Defined.

Lemma unary_operations_force_operand_witness :
  unthunkVariant demo 2 (any_thunk 1%N) w0
    = Done (any_int 42) (World ∅ [CallThunk 1%N; CallThunk 2%N]) /\
  operator_int debug_build demo 2 (any_thunk 1%N) w0
    = operator_int debug_build demo 2 (any_int 42)
        (World ∅ [CallThunk 1%N; CallThunk 2%N]).
Proof.
  split; [reflexivity|].
  exact (proj1 (unary_operations_force_operand debug_build demo 2 (any_thunk 1%N)
                  (any_int 42) (any_int 0) sym_x 0%nat w0
                  (World ∅ [CallThunk 1%N; CallThunk 2%N]) eq_refl)).
Defined.

(** ** Further properties of extraction, indexing and lookup *)

Section Access.

Variable cfg : config.
Variable prog : program.
Variable fuel : nat.

(** X5. In a debug build every extraction operator aborts when the forced
    variant has another tag than the requested one ([operator cstring]
    accepts both string tags), and the single-step [as_thunk] call aborts on
    a value that is not a thunk. *)
Theorem extraction_rejects_other_tags (a v : any) (w w1 : world) :
  DEBUG cfg = true ->
  unthunkVariant prog fuel a w = Done v w1 ->
  (tag v <> Tag.Integer ->
     operator_int cfg prog fuel a w = AssertionFailed "variant.type == TYPE") /\
  (tag v <> Tag.Double ->
     operator_double cfg prog fuel a w = AssertionFailed "variant.type == TYPE") /\
  (tag v <> Tag.Boolean ->
     operator_bool cfg prog fuel a w = AssertionFailed "variant.type == TYPE") /\
  (tag v <> Tag.Character ->
     operator_char cfg prog fuel a w = AssertionFailed "variant.type == TYPE") /\
  (tag v <> Tag.Array ->
     operator_array cfg prog fuel a w = AssertionFailed "variant.type == TYPE") /\
  (tag v <> Tag.StringLiteral -> tag v <> Tag.String ->
     operator_cstring cfg prog fuel a w
       = AssertionFailed "variant.type == Type::String") /\
  operator_call_thunk cfg prog v w1 = AssertionFailed "type == Type::Thunk".
Proof.
  intros Hdbg Ha.
  repeat split; try (intros Hne; by apply (RETURN_VALUE_forced cfg prog fuel _ _ _ _ _ _ Ha)).
  - intros Hl Hs. apply tag_eqb_neq in Hl, Hs.
    unfold operator_cstring, mbind, M_bind. rewrite Ha, Hl, Hs.
    by rewrite assert_false_debug.
  - apply unthunkVariant_loop_result in Ha. apply tag_eqb_neq in Ha.
    unfold operator_call_thunk, mbind, M_bind. rewrite Ha.
    by rewrite assert_false_debug.
Qed.

Lemma operator_array_is_array (w : world) (a : any) (xs : list any) :
  is_array w a xs -> operator_array cfg prog fuel a w = Done xs w.
Proof.
  intros (l & n & -> & Hl).
  unfold operator_array, RETURN_VALUE, unthunkVariant, array_of. run.
  rewrite unthunkVariant_loop_forced by discriminate.
  rewrite tag_eqb_refl, assert_true. run. by rewrite Hl.
Qed.

Lemma cast_data_is_data (w : world) (a : any) (xs : list any) :
  is_data w a xs -> cast_data cfg prog fuel a w = Done xs w.
Proof.
  intros (l & n & -> & Hl).
  unfold cast_data, extractPointer, RETURN_VALUE, unthunkVariant. run.
  rewrite unthunkVariant_loop_forced by discriminate.
  rewrite tag_eqb_refl, assert_true. run. by rewrite Hl.
Qed.

(** X6. Indexing an Array-tagged value returns the element at the index when
    there is one; past the end nothing is checked, in either build, and the
    result is undefined.  An Integer index is used as it is when it is not
    negative, and is out of range when it is. *)
Theorem array_index_unchecked (a : any) (xs : list any) (i : nat) (k : Z) (w : world) :
  is_array w a xs ->
  (forall x, xs !! i = Some x -> operator_index cfg prog fuel a i w = Done x w) /\
  ((length xs <= i)%nat -> operator_index cfg prog fuel a i w = UndefinedBehaviour) /\
  (0 <= k -> operator_index_any cfg prog fuel a (any_int k) w
               = operator_index cfg prog fuel a (Z.to_nat k) w) /\
  (k < 0 -> operator_index_any cfg prog fuel a (any_int k) w = UndefinedBehaviour).
Proof.
  intros Harr. pose proof (operator_array_is_array _ _ _ Harr) as Hxs.
  assert (operator_int cfg prog fuel (any_int k) w = Done k w) as Hk.
  { unfold operator_int, RETURN_VALUE, unthunkVariant. run.
    rewrite unthunkVariant_loop_forced by discriminate. simpl.
    by rewrite assert_true. }
  unfold operator_index_any, operator_index, at_index, mbind, M_bind.
  rewrite Hxs, Hk. repeat split.
  - by intros x ->.
  - intros Hlen. by rewrite (lookup_ge_None_2 _ _ Hlen).
  - intros Hpos. apply Z.ltb_ge in Hpos. by rewrite Hpos.
  - intros Hneg. apply Z.ltb_lt in Hneg. by rewrite Hneg.
Qed.

(** X7. A Data-tagged value is read by position with no bounds check, its
    constructor discriminant is the Integer at index 0, and in a debug build
    it is refused where a map is expected (symbol lookup, [contains]) though
    both kinds are stored through the same union member. *)
Theorem data_access (a : any) (xs : list any) (n : nat) (key : Symbol) (w : world) :
  is_data w a xs ->
  (forall x, xs !! n = Some x -> data_get cfg prog fuel n a w = Done x w) /\
  ((length xs <= n)%nat -> data_get cfg prog fuel n a w = UndefinedBehaviour) /\
  (forall i, xs !! 0%nat = Some (any_int i) -> data_ctor cfg prog fuel a w = Done i w) /\
  (DEBUG cfg = true ->
     operator_index_symbol cfg prog fuel a key w = AssertionFailed "variant.type == TYPE" /\
     contains cfg prog fuel a key w = AssertionFailed "variant.type == TYPE").
Proof.
  intros Hdata. pose proof (cast_data_is_data _ _ _ Hdata) as Hxs.
  destruct Hdata as (l & r & -> & Hl).
  repeat split.
  - intros x Hx. unfold data_get, at_index, mbind, M_bind. by rewrite Hxs, Hx.
  - intros Hlen. unfold data_get, at_index, mbind, M_bind.
    by rewrite Hxs, (lookup_ge_None_2 _ _ Hlen).
  - intros i Hi. unfold data_ctor, data_get, at_index, mbind, M_bind.
    rewrite Hxs, Hi. unfold operator_int, RETURN_VALUE, unthunkVariant. run.
    rewrite unthunkVariant_loop_forced by discriminate. simpl.
    by rewrite assert_true.
  - unfold operator_index_symbol, cast_map, extractPointer, RETURN_VALUE,
      unthunkVariant. run.
    rewrite unthunkVariant_loop_forced by discriminate. simpl.
    by rewrite assert_false_debug.
  - unfold contains, cast_map, extractPointer, RETURN_VALUE, unthunkVariant. run.
    rewrite unthunkVariant_loop_forced by discriminate. simpl.
    by rewrite assert_false_debug.
Qed.

(** X8. On a laid-out map, access by position and access by key agree: the
    value of the pair at position [n] is what lookup of that pair's key
    returns, through [operator[]] and through [map::get] alike; and a debug
    build refuses the map where a data tuple is expected. *)
Theorem map_position_and_key_agree
    (a : any) (m entries : list map_pair) (n : nat) (k : Symbol) (v : any) (w : world) :
  is_map w a m ->
  map_layout m entries ->
  entries !! n = Some (k, v) ->
  map_get_at cfg prog fuel n a w = Done v w /\
  operator_index_symbol cfg prog fuel a k w = Done v w /\
  map_get cfg prog fuel k a w = Done v w /\
  (DEBUG cfg = true ->
     data_get cfg prog fuel n a w = AssertionFailed "variant.type == TYPE").
Proof.
  intros Hmap [Hne Hkeys Hnd [s ->]] Hn.
  pose proof (cast_map_is_map cfg prog fuel _ _ _ Hmap) as Hcast.
  pose proof (scan_layout k s entries Hne Hkeys) as Hscan.
  assert ((k, v) ∈ entries) as Hin by (eapply list_elem_of_lookup_2; exact Hn).
  rewrite (assoc_present _ _ _ Hnd Hin) in Hscan.
  repeat split.
  - unfold map_get_at, at_index, mbind, M_bind. rewrite Hcast.
    by rewrite (lookup_app_l_Some _ _ _ _ Hn).
  - unfold operator_index_symbol, mbind, M_bind. by rewrite Hcast, Hscan.
  - unfold map_get, mbind, M_bind. by rewrite Hcast, Hscan.
  - intros Hdbg. destruct Hmap as (l & r & -> & Hl).
    unfold data_get, cast_data, extractPointer, RETURN_VALUE, unthunkVariant. run.
    rewrite unthunkVariant_loop_forced by discriminate. simpl.
    by rewrite assert_false_debug.
Qed.

(** X9. Lookup needs no unique keys and no debug build to be defined: on at
    least one entry with non-null keys followed by the sentinel it returns
    the value of the first pair with the key; for an absent key a debug
    build aborts and a release build returns the null raw pointer
    [invalid_key]. *)
Theorem lookup_first_match_or_invalid_key
    (a : any) (entries : list map_pair) (s : any) (key : Symbol) (w : world) :
  is_map w a (entries ++ [(nullsym, s)]) ->
  entries <> [] ->
  Forall (fun p => fst p <> nullsym) entries ->
  operator_index_symbol cfg prog fuel a key w
    = match assoc key entries with
      | Some v => Done v w
      | None => if DEBUG cfg then AssertionFailed "map key not found"
                else Done invalid_key w
      end.
Proof.
  intros Hmap Hne Hkeys.
  unfold operator_index_symbol, mbind, M_bind.
  rewrite (cast_map_is_map cfg prog fuel _ _ _ Hmap), (scan_layout key s entries Hne Hkeys).
  destruct (assoc key entries); [reflexivity|].
  unfold assert_. by destruct (DEBUG cfg).
Qed.

(** X10. A map that is only the sentinel is not supported: lookup and
    [contains] of any non-null key read past the end of the pairs, in both
    builds, and the null key finds the sentinel's own value. *)
Theorem sentinel_only_map (a s : any) (key : Symbol) (w : world) :
  is_map w a [(nullsym, s)] ->
  (key <> nullsym ->
     operator_index_symbol cfg prog fuel a key w = UndefinedBehaviour /\
     contains cfg prog fuel a key w = UndefinedBehaviour) /\
  operator_index_symbol cfg prog fuel a nullsym w = Done s w /\
  contains cfg prog fuel a nullsym w = Done true w.
Proof.
  intros Hmap. pose proof (cast_map_is_map cfg prog fuel _ _ _ Hmap) as Hcast.
  unfold operator_index_symbol, contains, mbind, M_bind. rewrite Hcast.
  split; [|split; reflexivity].
  intros Hkey. destruct key as [|q]; [by destruct Hkey|]. by split.
Qed.

End Access.

Section Construct.

Variable cfg : config.
Variable prog : program.
Variable fuel : nat.

(** X11. What is built is what is read: an element of the sequence an Array
    or a Data value is constructed from is returned by indexing the new value
    at its position, and every pair of a laid-out map is found by its key in
    the Map value constructed from it; the constructors call nothing. *)
Theorem construct_then_read
    (xs : list any) (i : nat) (x : any)
    (m entries : list map_pair) (key : Symbol) (v : any) (w : world) :
  xs !! i = Some x ->
  map_layout m entries ->
  (key, v) ∈ entries ->
  (exists w', (any_array xs ≫= fun a => operator_index cfg prog fuel a i) w = Done x w' /\
              trace w' = trace w) /\
  (exists w', (any_data xs ≫= data_get cfg prog fuel i) w = Done x w' /\
              trace w' = trace w) /\
  (exists w', (any_map m ≫= fun a => operator_index_symbol cfg prog fuel a key) w
                = Done v w' /\
              (any_map m ≫= fun a => contains cfg prog fuel a key) w = Done true w' /\
              trace w' = trace w).
Proof.
  intros Hx [Hne Hkeys Hnd [s ->]] Hin. split; [|split].
  - destruct (make_managed_deref (OArray xs) w) as (l & Hmk & _).
    assert (is_array (World (<[l := Cell 1 (OArray xs)]> (heap w)) (trace w))
              (Any Tag.Array (U_a (Some l))) xs) as Harr.
    { exists l, 1%nat. split; [reflexivity|]. apply lookup_insert_eq. }
    eexists. unfold any_array, operator_index, at_index, mbind, M_bind.
    rewrite Hmk. unfold mret, M_ret.
    rewrite (operator_array_is_array cfg prog fuel _ _ _ Harr), Hx. by split.
  - destruct (make_managed_deref (OData xs) w) as (l & Hmk & _).
    assert (is_data (World (<[l := Cell 1 (OData xs)]> (heap w)) (trace w))
              (Any Tag.Data (U_p (Some l))) xs) as Hdata.
    { exists l, 1%nat. split; [reflexivity|]. apply lookup_insert_eq. }
    eexists. unfold any_data, data_get, at_index, mbind, M_bind.
    rewrite Hmk. unfold mret, M_ret.
    rewrite (cast_data_is_data cfg prog fuel _ _ _ Hdata), Hx. by split.
  - pose proof (scan_layout key s entries Hne Hkeys) as Hscan.
    rewrite (assoc_present _ _ _ Hnd Hin) in Hscan.
    destruct (make_managed_deref (OMap (entries ++ [(nullsym, s)])) w)
      as (l & Hmk & _).
    assert (is_map (World (<[l := Cell 1 (OMap (entries ++ [(nullsym, s)]))]> (heap w))
                      (trace w))
              (Any Tag.Map (U_p (Some l))) (entries ++ [(nullsym, s)])) as Hmap.
    { exists l, 1%nat. split; [reflexivity|]. apply lookup_insert_eq. }
    pose proof (cast_map_is_map cfg prog fuel _ _ _ Hmap) as Hcast.
    eexists. unfold any_map, operator_index_symbol, contains, mbind, M_bind.
    rewrite Hmk. unfold mret, M_ret. rewrite Hcast, Hscan.
    repeat split.
Qed.

End Construct.

Lemma extraction_rejects_other_tags_witness :
  DEBUG debug_build = true /\
  unthunkVariant demo 2 (any_thunk 1%N) w0
    = Done (any_int 42) (World ∅ [CallThunk 1%N; CallThunk 2%N]) /\
  operator_double debug_build demo 2 (any_thunk 1%N) w0
    = AssertionFailed "variant.type == TYPE".
Proof.
  split; [reflexivity|]. split; [reflexivity|].
  refine (proj1 (proj2 (extraction_rejects_other_tags debug_build demo 2
                          (any_thunk 1%N) (any_int 42) w0
                          (World ∅ [CallThunk 1%N; CallThunk 2%N]) eq_refl eq_refl)) _).
  discriminate.
Defined.

Lemma demo_is_array :
  is_array demo_world2 (Any Tag.Array (U_a (Some 5%positive))) demo_elems.
Proof. exists 5%positive, 1%nat. split; reflexivity. Qed.

Lemma demo_is_data :
  is_data demo_world2 (Any Tag.Data (U_p (Some 6%positive))) demo_fields.
Proof. exists 6%positive, 1%nat. split; reflexivity. Qed.

Lemma demo_is_sentinel :
  is_map demo_world2 (Any Tag.Map (U_p (Some 7%positive))) [(nullsym, any_nullptr)].
Proof. exists 7%positive, 1%nat. split; reflexivity. Qed.

Lemma array_index_unchecked_witness :
  let a := Any Tag.Array (U_a (Some 5%positive)) in
  is_array demo_world2 a demo_elems /\
  operator_index debug_build demo 0 a 1 demo_world2 = Done (any_int 20) demo_world2 /\
  operator_index debug_build demo 0 a 3 demo_world2 = UndefinedBehaviour /\
  operator_index_any debug_build demo 0 a (any_int (-1)) demo_world2
    = UndefinedBehaviour.
Proof.
  split; [exact demo_is_array|].
  destruct (array_index_unchecked debug_build demo 0 _ _ 1%nat (-1) demo_world2
              demo_is_array) as (Hin & _ & _ & Hneg).
  destruct (array_index_unchecked debug_build demo 0 _ _ 3%nat (-1) demo_world2
              demo_is_array) as (_ & Hout & _ & _).
  split; [by apply Hin|]. split; [apply Hout; simpl; lia | apply Hneg; lia].
Defined.

Lemma data_access_witness :
  let a := Any Tag.Data (U_p (Some 6%positive)) in
  is_data demo_world2 a demo_fields /\
  data_get debug_build demo 0 1 a demo_world2 = Done (any_literal "f") demo_world2 /\
  data_ctor debug_build demo 0 a demo_world2 = Done 1 demo_world2 /\
  contains debug_build demo 0 a sym_x demo_world2
    = AssertionFailed "variant.type == TYPE".
Proof.
  split; [exact demo_is_data|].
  destruct (data_access debug_build demo 0 _ _ 1%nat sym_x demo_world2 demo_is_data)
    as (Hget & _ & Hctor & Hmap).
  split; [by apply Hget|]. split; [by apply Hctor|]. by apply Hmap.
Defined.

Lemma map_position_and_key_agree_witness :
  let a := Any Tag.Map (U_p (Some 2%positive)) in
  is_map demo_world a demo_map /\
  map_layout demo_map demo_entries /\
  demo_entries !! 1%nat = Some (sym_y, any_int 2) /\
  map_get_at debug_build demo 0 1 a demo_world = Done (any_int 2) demo_world /\
  operator_index_symbol debug_build demo 0 a sym_y demo_world
    = Done (any_int 2) demo_world.
Proof.
  split; [exact demo_is_map|]. split; [exact demo_layout|]. split; [reflexivity|].
  destruct (map_position_and_key_agree debug_build demo 0 _ _ _ 1%nat sym_y (any_int 2)
              demo_world demo_is_map demo_layout eq_refl) as (Hat & Hkey & _).
  by split.
Defined.

Lemma lookup_first_match_or_invalid_key_witness :
  let a := Any Tag.Map (U_p (Some 2%positive)) in
  is_map demo_world a (demo_entries ++ [(nullsym, any_nullptr)]) /\
  demo_entries <> [] /\
  Forall (fun p => fst p <> nullsym) demo_entries /\
  operator_index_symbol release_build demo 0 a sym_z demo_world
    = Done invalid_key demo_world.
Proof.
  assert (Forall (fun p : map_pair => fst p <> nullsym) demo_entries) as Hkeys
    by (repeat constructor; discriminate).
  split; [exact demo_is_map|]. split; [discriminate|]. split; [exact Hkeys|].
  apply (lookup_first_match_or_invalid_key release_build demo 0 _ demo_entries
           any_nullptr sym_z demo_world demo_is_map); [discriminate | exact Hkeys].
Defined.

Lemma sentinel_only_map_witness :
  let a := Any Tag.Map (U_p (Some 7%positive)) in
  is_map demo_world2 a [(nullsym, any_nullptr)] /\
  sym_x <> nullsym /\
  operator_index_symbol debug_build demo 0 a sym_x demo_world2 = UndefinedBehaviour /\
  contains release_build demo 0 a sym_x demo_world2 = UndefinedBehaviour.
Proof.
  split; [exact demo_is_sentinel|]. split; [discriminate|].
  destruct (sentinel_only_map debug_build demo 0 _ _ sym_x demo_world2 demo_is_sentinel)
    as (Hdbg & _).
  destruct (sentinel_only_map release_build demo 0 _ _ sym_x demo_world2 demo_is_sentinel)
    as (Hrel & _).
  split; [apply Hdbg | apply Hrel]; discriminate.
Defined.

Lemma construct_then_read_witness :
  demo_elems !! 2%nat = Some (any_int 30) /\
  map_layout demo_map demo_entries /\
  (sym_x, any_int 1) ∈ demo_entries /\
  (exists w', (any_array demo_elems ≫= fun a => operator_index debug_build demo 0 a 2) w0
                = Done (any_int 30) w' /\ trace w' = trace w0) /\
  (exists w', (any_map demo_map ≫= fun a => operator_index_symbol debug_build demo 0 a sym_x) w0
                = Done (any_int 1) w' /\
              (any_map demo_map ≫= fun a => contains debug_build demo 0 a sym_x) w0
                = Done true w' /\
              trace w' = trace w0).
Proof.
  assert ((sym_x, any_int 1) ∈ demo_entries) as Hin by (apply elem_of_cons; by left).
  split; [reflexivity|]. split; [exact demo_layout|]. split; [exact Hin|].
  destruct (construct_then_read debug_build demo 0 demo_elems 2%nat (any_int 30)
              demo_map demo_entries sym_x (any_int 1) w0 eq_refl demo_layout Hin)
    as (Harr & _ & Hmap).
  by split.
Defined.

(** ** Further properties of the string operators *)

Lemma uchar_zero (c : ascii) : uchar c = 0 <-> c = NUL.
Proof.
  unfold uchar. split.
  - intros H. rewrite <- (ascii_N_embedding c).
    replace (N_of_ascii c) with 0%N by lia. reflexivity.
  - by intros ->.
Qed.

Lemma uchar_inj (c1 c2 : ascii) : uchar c1 = uchar c2 -> c1 = c2.
Proof.
  unfold uchar. intros H. apply N2Z.inj in H.
  rewrite <- (ascii_N_embedding c1), <- (ascii_N_embedding c2). by rewrite H.
Qed.

Lemma is_nul_uchar (c : ascii) : Ascii.eqb c NUL = (uchar c =? 0).
Proof.
  destruct (Ascii.eqb_spec c NUL) as [-> | Hne]; [reflexivity|].
  symmetry. apply Z.eqb_neq. intros H. by apply uchar_zero in H.
Qed.

Lemma strcmp_antisym (s1 s2 : string) : strcmp s2 s1 = - strcmp s1 s2.
Proof.
  revert s2. induction s1 as [|a s1 IH]; intros [|b s2]; cbn [strcmp head_code];
    repeat (match goal with
            | |- context [?x =? ?y] => destruct (Z.eqb_spec x y)
            end; cbn [negb]); try lia.
  apply IH.
Qed.

Lemma strcmp_zero_iff (s1 s2 : string) :
  strcmp s1 s2 = 0 <-> c_prefix s1 = c_prefix s2.
Proof.
  revert s2. induction s1 as [|a s1 IH]; intros [|b s2];
    cbn [strcmp head_code c_prefix]; rewrite ?is_nul_uchar;
    repeat (match goal with
            | |- context [?x =? ?y] => destruct (Z.eqb_spec x y)
            end; cbn [negb]);
    try (split; (reflexivity || discriminate || lia)).
  - rewrite IH. apply uchar_inj in e. subst b.
    split; [by intros -> | by intros [= ->]].
  - split; [lia|]. intros [= Hab _]. congruence.
Qed.

Section Strings.

Variable cfg : config.
Variable prog : program.
Variable fuel : nat.

Lemma operator_cmp_holds_chars (op : cmp_op) (a b : any) (s1 s2 : string) (w : world) :
  holds_chars w a s1 ->
  holds_chars w b s2 ->
  operator_cmp cfg prog fuel op a b w = Done (cmpZ op (strcmp s1 s2) 0) w.
Proof.
  intros Ha Hb.
  destruct (holds_chars_tag _ _ _ Ha) as [Hta Hna].
  destruct (holds_chars_tag _ _ _ Hb) as [Htb Hnb].
  pose proof (chars_of_holds _ _ _ Hb) as Hcb.
  unfold operator_cmp. run.
  rewrite (unthunkVariant_forced prog fuel a w Hna), (unthunkVariant_forced prog fuel b w Hnb).
  destruct Ha as [-> | (l & n & -> & Hl)]; simpl.
  - rewrite assert_true, Htb, assert_true, Hcb. reflexivity.
  - rewrite assert_true, Htb, assert_true.
    rewrite (string_of_heap _ _ _ _ Hl), Hcb. reflexivity.
Qed.

(** X12. Two string-tagged values are [==] exactly when their characters
    before the first NUL coincide; what follows a NUL inside an owned string
    or a literal takes no part in any comparison. *)
Theorem string_equality_up_to_nul (a b : any) (s1 s2 : string) (w : world) :
  holds_chars w a s1 ->
  holds_chars w b s2 ->
  exists r, operator_cmp cfg prog fuel OpEq a b w = Done r w /\
            (r = true <-> c_prefix s1 = c_prefix s2).
Proof.
  intros Ha Hb. eexists. split; [by apply operator_cmp_holds_chars|].
  simpl. rewrite Z.eqb_eq. apply strcmp_zero_iff.
Qed.

(** X13. On string-tagged values of either representation the comparison
    operators form one order: swapping the operands turns [<] into [>] and
    [<=] into [>=], [!=] is the negation of [==], [<=] is [<] or [==], and
    exactly one of [<], [==], [>] holds. *)
Theorem string_comparisons_consistent (a b : any) (s1 s2 : string) (w : world) :
  holds_chars w a s1 ->
  holds_chars w b s2 ->
  exists lt eq gt,
    operator_cmp cfg prog fuel OpLt a b w = Done lt w /\
    operator_cmp cfg prog fuel OpEq a b w = Done eq w /\
    operator_cmp cfg prog fuel OpGt a b w = Done gt w /\
    operator_cmp cfg prog fuel OpGt b a w = Done lt w /\
    operator_cmp cfg prog fuel OpEq b a w = Done eq w /\
    operator_cmp cfg prog fuel OpLt b a w = Done gt w /\
    operator_cmp cfg prog fuel OpNe a b w = Done (negb eq) w /\
    operator_cmp cfg prog fuel OpLe a b w = Done (lt || eq) w /\
    operator_cmp cfg prog fuel OpGe a b w = Done (gt || eq) w /\
    operator_cmp cfg prog fuel OpGe b a w = Done (lt || eq) w /\
    (lt = true /\ eq = false /\ gt = false \/
     lt = false /\ eq = true /\ gt = false \/
     lt = false /\ eq = false /\ gt = true).
Proof.
  intros Ha Hb.
  exists (strcmp s1 s2 <? 0), (strcmp s1 s2 =? 0), (0 <? strcmp s1 s2).
  rewrite !(operator_cmp_holds_chars _ a b s1 s2 w Ha Hb).
  rewrite !(operator_cmp_holds_chars _ b a s2 s1 w Hb Ha).
  rewrite (strcmp_antisym s1 s2). simpl.
  repeat split; try (f_equal; lia).
Qed.

Lemma unthunk_holds_chars (a : any) (s : string) (w : world) :
  holds_chars w a s -> unthunkVariant prog fuel a w = Done a w.
Proof. intros Ha. apply unthunkVariant_forced. by eapply holds_chars_tag. Qed.

Lemma operator_cstring_holds_chars (a : any) (s : string) (w : world) :
  holds_chars w a s -> operator_cstring cfg prog fuel a w = Done s w.
Proof.
  intros Ha. unfold operator_cstring, mbind, M_bind.
  rewrite (unthunk_holds_chars _ _ _ Ha).
  destruct Ha as [-> | (l & n & -> & Hl)]; simpl; [reflexivity|].
  rewrite assert_true. by eapply string_of_heap.
Qed.

(** X14. The comparison operators that take a [const char *] on one side
    agree with the operators on two values: comparing a string-tagged value
    with [p] gives what comparing it with the literal value [any(p)] gives,
    on either side and for every operator. *)
Theorem cstr_operators_agree (op : cmp_op) (a : any) (s p : string) (w : world) :
  holds_chars w a s ->
  operator_eq_cstr cfg prog fuel a p w
    = operator_cmp cfg prog fuel OpEq a (any_literal p) w /\
  operator_cstr_eq cfg prog fuel p a w
    = operator_cmp cfg prog fuel OpEq (any_literal p) a w /\
  operator_cmp_cstr cfg prog fuel op a p w
    = operator_cmp cfg prog fuel op a (any_literal p) w /\
  operator_cstr_cmp cfg prog fuel op p a w
    = operator_cmp cfg prog fuel op (any_literal p) a w.
Proof.
  intros Ha.
  assert (holds_chars w (any_literal p) p) as Hp by (by left).
  rewrite !(operator_cmp_holds_chars _ _ _ _ _ w Ha Hp).
  rewrite !(operator_cmp_holds_chars _ _ _ _ _ w Hp Ha).
  pose proof (operator_cstring_holds_chars _ _ _ Ha) as Hcs.
  pose proof (unthunk_holds_chars _ _ _ Ha) as Hforce.
  destruct (holds_chars_tag _ _ _ Ha) as [Hta _].
  repeat split.
  - unfold operator_eq_cstr, mbind, M_bind. rewrite Hforce, Hta, assert_true.
    destruct Ha as [-> | (l & n & -> & Hl)]; simpl; [reflexivity|].
    by rewrite (string_of_heap _ _ _ _ Hl).
  - unfold operator_cstr_eq, mbind, M_bind. rewrite Hforce, Hta, assert_true.
    destruct Ha as [-> | (l & n & -> & Hl)]; simpl.
    + by rewrite (operator_cstring_holds_chars (any_literal s) s w) by (by left).
    + by rewrite (string_of_heap _ _ _ _ Hl).
  - unfold operator_cmp_cstr, mbind, M_bind. by rewrite Hcs.
  - unfold operator_cstr_cmp, mbind, M_bind. by rewrite Hcs.
Qed.

End Strings.

Section Concatenation.

Variable cfg : config.
Variable prog : program.
Variable fuel : nat.

Lemma operator_plus_strings (a b : any) (s1 s2 : string) (w : world) :
  holds_chars w a s1 ->
  holds_chars w b s2 ->
  let l := fresh (dom (heap w)) in
  operator_plus cfg prog fuel a b w
    = Done (Any Tag.String (U_s (Some l)))
        (World (<[l := Cell 1 (OString (plus_chars a s1 +:+ plus_chars b s2))]> (heap w))
               (trace w)).
Proof.
  intros Ha Hb l.
  destruct (holds_chars_tag _ _ _ Ha) as [Hta Hna].
  destruct (holds_chars_tag _ _ _ Hb) as [Htb Hnb].
  unfold operator_plus. run.
  rewrite (unthunkVariant_forced prog fuel a w Hna), (unthunkVariant_forced prog fuel b w Hnb).
  destruct Ha as [-> | (la & na & -> & Hla)], Hb as [-> | (lb & nb & -> & Hlb)];
    simpl; rewrite !assert_true; simpl;
    rewrite ?(string_of_heap _ _ _ _ Hla), ?(string_of_heap _ _ _ _ Hlb);
    reflexivity.
Qed.

Lemma operator_cstring_owned (l : loc) (n : nat) (s : string) (w : world) :
  heap w !! l = Some (Cell n (OString s)) ->
  operator_cstring cfg prog fuel (Any Tag.String (U_s (Some l))) w = Done s w.
Proof.
  intros Hl. apply operator_cstring_holds_chars. right. by exists l, n.
Qed.

(** X15. [+] on two string-tagged values, in each of the four pairings of
    literal and owned string, returns a new owned String whose characters
    are the left operand's followed by the right operand's (a literal read
    as a C string); it is allocated in a cell that was free, leaves every
    other cell and the operands as they were, and calls nothing. *)
Theorem string_concatenation (a b : any) (s1 s2 : string) (w : world) :
  holds_chars w a s1 ->
  holds_chars w b s2 ->
  exists l w',
    heap w !! l = None /\
    w' = World (<[l := Cell 1 (OString (plus_chars a s1 +:+ plus_chars b s2))]> (heap w))
               (trace w) /\
    operator_plus cfg prog fuel a b w = Done (Any Tag.String (U_s (Some l))) w' /\
    (operator_plus cfg prog fuel a b ≫= operator_cstring cfg prog fuel) w
      = Done (plus_chars a s1 +:+ plus_chars b s2) w' /\
    holds_chars w' a s1 /\ holds_chars w' b s2.
Proof.
  intros Ha Hb. pose proof (operator_plus_strings a b s1 s2 w Ha Hb) as Hplus.
  assert (heap w !! fresh (dom (heap w)) = None) as Hfresh
    by (apply not_elem_of_dom, is_fresh).
  eexists _, _. split; [exact Hfresh|]. split; [reflexivity|].
  split; [exact Hplus|]. split.
  - unfold mbind, M_bind. rewrite Hplus.
    eapply operator_cstring_owned. apply lookup_insert_eq.
  - split.
    + destruct Ha as [-> | (la & na & -> & Hla)]; [by left|].
      right. exists la, na. split; [reflexivity|]. simpl.
      rewrite lookup_insert_ne; [exact Hla | congruence].
    + destruct Hb as [-> | (lb & nb & -> & Hlb)]; [by left|].
      right. exists lb, nb. split; [reflexivity|]. simpl.
      rewrite lookup_insert_ne; [exact Hlb | congruence].
Qed.

(** X16. [+] with a [const char *] on one side returns, as a [std::string],
    the characters that [+] with the literal value [any(p)] on that side puts
    into its result. *)
Theorem cstr_concatenation_agrees (a : any) (s p : string) (w : world) :
  holds_chars w a s ->
  exists wl wr,
    operator_plus_cstr cfg prog fuel a p w = Done (plus_chars a s +:+ c_prefix p) w /\
    (operator_plus cfg prog fuel a (any_literal p) ≫= operator_cstring cfg prog fuel) w
      = Done (plus_chars a s +:+ c_prefix p) wl /\
    operator_cstr_plus cfg prog fuel p a w = Done (c_prefix p +:+ plus_chars a s) w /\
    (operator_plus cfg prog fuel (any_literal p) a ≫= operator_cstring cfg prog fuel) w
      = Done (c_prefix p +:+ plus_chars a s) wr.
Proof.
  intros Ha.
  assert (holds_chars w (any_literal p) p) as Hp by (by left).
  pose proof (operator_plus_strings a (any_literal p) s p w Ha Hp) as Hl.
  pose proof (operator_plus_strings (any_literal p) a p s w Hp Ha) as Hr.
  pose proof (unthunk_holds_chars prog fuel _ _ _ Ha) as Hforce.
  destruct (holds_chars_tag _ _ _ Ha) as [Hta _].
  eexists _, _. repeat split.
  - unfold operator_plus_cstr, mbind, M_bind. rewrite Hforce, Hta, assert_true.
    destruct Ha as [-> | (l & n & -> & Hla)]; simpl; [reflexivity|].
    by rewrite (string_of_heap _ _ _ _ Hla).
  - unfold mbind, M_bind. rewrite Hl.
    eapply operator_cstring_owned. apply lookup_insert_eq.
  - unfold operator_cstr_plus, mbind, M_bind. rewrite Hforce, Hta, assert_true.
    destruct Ha as [-> | (l & n & -> & Hla)]; simpl; [reflexivity|].
    by rewrite (string_of_heap _ _ _ _ Hla).
  - unfold mbind, M_bind. rewrite Hr.
    eapply operator_cstring_owned. apply lookup_insert_eq.
Qed.

End Concatenation.

Lemma demo_holds_literal (s : string) : holds_chars demo_world (any_literal s) s.
Proof. by left. Qed.

Lemma demo_holds_owned :
  holds_chars demo_world (Any Tag.String (U_s (Some 1%positive))) "abc".
Proof. right. exists 1%positive, 1%nat. split; reflexivity. Qed.

Lemma string_equality_up_to_nul_witness :
  let cut := String "a" (String "b" (String "c" (String NUL "x"))) in
  holds_chars demo_world (any_literal cut) cut /\
  holds_chars demo_world (Any Tag.String (U_s (Some 1%positive))) "abc" /\
  exists r,
    operator_cmp debug_build demo 0 OpEq (any_literal cut)
      (Any Tag.String (U_s (Some 1%positive))) demo_world = Done r demo_world /\
    (r = true <-> c_prefix cut = c_prefix "abc").
Proof.
  split; [apply demo_holds_literal|]. split; [exact demo_holds_owned|].
  exact (string_equality_up_to_nul debug_build demo 0 _ _ _ _ demo_world
           (demo_holds_literal _) demo_holds_owned).
Defined.

Lemma string_comparisons_consistent_witness :
  let a := any_literal "abd" in
  let b := Any Tag.String (U_s (Some 1%positive)) in
  holds_chars demo_world a "abd" /\
  holds_chars demo_world b "abc" /\
  exists lt eq gt,
    operator_cmp debug_build demo 0 OpLt a b demo_world = Done lt demo_world /\
    operator_cmp debug_build demo 0 OpEq a b demo_world = Done eq demo_world /\
    operator_cmp debug_build demo 0 OpGt a b demo_world = Done gt demo_world /\
    operator_cmp debug_build demo 0 OpGt b a demo_world = Done lt demo_world /\
    operator_cmp debug_build demo 0 OpEq b a demo_world = Done eq demo_world /\
    operator_cmp debug_build demo 0 OpLt b a demo_world = Done gt demo_world /\
    operator_cmp debug_build demo 0 OpNe a b demo_world = Done (negb eq) demo_world /\
    operator_cmp debug_build demo 0 OpLe a b demo_world = Done (lt || eq) demo_world /\
    operator_cmp debug_build demo 0 OpGe a b demo_world = Done (gt || eq) demo_world /\
    operator_cmp debug_build demo 0 OpGe b a demo_world = Done (lt || eq) demo_world /\
    (lt = true /\ eq = false /\ gt = false \/
     lt = false /\ eq = true /\ gt = false \/
     lt = false /\ eq = false /\ gt = true).
Proof.
  split; [apply demo_holds_literal|]. split; [exact demo_holds_owned|].
  exact (string_comparisons_consistent debug_build demo 0 _ _ _ _ demo_world
           (demo_holds_literal "abd") demo_holds_owned).
Defined.

Lemma cstr_operators_agree_witness :
  holds_chars demo_world (Any Tag.String (U_s (Some 1%positive))) "abc" /\
  operator_eq_cstr debug_build demo 0 (Any Tag.String (U_s (Some 1%positive))) "abc"
      demo_world
    = operator_cmp debug_build demo 0 OpEq (Any Tag.String (U_s (Some 1%positive)))
        (any_literal "abc") demo_world /\
  operator_cstr_cmp debug_build demo 0 OpLt "abb" (Any Tag.String (U_s (Some 1%positive)))
      demo_world
    = operator_cmp debug_build demo 0 OpLt (any_literal "abb")
        (Any Tag.String (U_s (Some 1%positive))) demo_world.
Proof.
  split; [exact demo_holds_owned|].
  destruct (cstr_operators_agree debug_build demo 0 OpLt _ _ "abc" demo_world
              demo_holds_owned) as (Heq & _).
  destruct (cstr_operators_agree debug_build demo 0 OpLt _ _ "abb" demo_world
              demo_holds_owned) as (_ & _ & _ & Hlt).
  by split.
Defined.

Lemma string_concatenation_witness :
  holds_chars demo_world (any_literal "x-") "x-" /\
  holds_chars demo_world (Any Tag.String (U_s (Some 1%positive))) "abc" /\
  exists l w',
    heap demo_world !! l = None /\
    w' = World (<[l := Cell 1 (OString "x-abc")]> (heap demo_world)) [] /\
    operator_plus debug_build demo 0 (any_literal "x-")
      (Any Tag.String (U_s (Some 1%positive))) demo_world
      = Done (Any Tag.String (U_s (Some l))) w' /\
    (operator_plus debug_build demo 0 (any_literal "x-")
       (Any Tag.String (U_s (Some 1%positive))) ≫= operator_cstring debug_build demo 0)
      demo_world = Done "x-abc" w' /\
    holds_chars w' (any_literal "x-") "x-" /\
    holds_chars w' (Any Tag.String (U_s (Some 1%positive))) "abc".
Proof.
  split; [apply demo_holds_literal|]. split; [exact demo_holds_owned|].
  exact (string_concatenation debug_build demo 0 _ _ _ _ demo_world
           (demo_holds_literal "x-") demo_holds_owned).
Defined.

Lemma cstr_concatenation_agrees_witness :
  holds_chars demo_world (Any Tag.String (U_s (Some 1%positive))) "abc" /\
  operator_plus_cstr debug_build demo 0 (Any Tag.String (U_s (Some 1%positive))) "-y"
    demo_world = Done "abc-y" demo_world.
Proof.
  split; [exact demo_holds_owned|].
  destruct (cstr_concatenation_agrees debug_build demo 0 _ _ "-y" demo_world
              demo_holds_owned) as (wl & wr & Hl & _).
  exact Hl.
Defined.

(** ** Further properties of the arithmetic and comparison operators *)

Lemma returns_ret {A} (P : A -> Prop) (a : A) : P a -> returns P (mret a).
Proof. intros Ha w b w1 H. by inversion H; subst. Qed.

Lemma returns_stuck {A} (P : A -> Prop) (m : M A) :
  (forall w a w1, m w <> Done a w1) -> returns P m.
Proof. intros Hm w a w1 H. by apply Hm in H. Qed.

Lemma returns_bind {A B} (Q : A -> Prop) (P : B -> Prop) (m : M A) (f : A -> M B) :
  returns Q m -> (forall a, Q a -> returns P (f a)) -> returns P (m ≫= f).
Proof.
  intros Hm Hf w b w1 H. unfold mbind, M_bind in H.
  destruct (m w) as [a w2| | |] eqn:Hmw; try done.
  eapply Hf; [|exact H]. by eapply Hm.
Qed.

Lemma returns_any {A} (m : M A) : returns (fun _ => True) m.
Proof. by intros w a w1 _. Qed.

Lemma to_char_range (z : Z) : -128 <= to_char z <= 127.
Proof. unfold to_char. pose proof (Z.mod_pos_bound (z + 128) 256). lia. Qed.

Lemma returns_get_i (a : any) : returns (fun x => un a = U_i x) (get_i a).
Proof.
  unfold get_i. destruct (un a); try (by apply returns_stuck). by apply returns_ret.
Qed.

Lemma returns_int_result (z : Z) : returns (fun r => in_int r = true) (int_result z).
Proof.
  unfold int_result. destruct (in_int z) eqn:Hz; [by apply returns_ret | by apply returns_stuck].
Qed.

Lemma returns_int_div (x y : Z) : returns (fun r => in_int r = true) (int_div x y).
Proof.
  unfold int_div. destruct (y =? 0); [by apply returns_stuck | apply returns_int_result].
Qed.

Lemma rem_in_int (x y : Z) : in_int x = true -> in_int (Z.rem x y) = true.
Proof.
  unfold in_int, int_min, int_max. intros Hx.
  destruct (Z.eq_dec y 0) as [-> | Hy]; [by rewrite Z.rem_0_r_ext|].
  apply andb_true_iff in Hx as [Hlo Hhi]. apply Z.leb_le in Hlo, Hhi.
  pose proof (Z.rem_abs x y Hy) as Habs.
  assert (Z.rem (Z.abs x) (Z.abs y) <= Z.abs x) by (apply Z.rem_le; lia).
  assert (0 <= x -> 0 <= Z.rem x y) by (intros; by apply Z.rem_nonneg).
  assert (x <= 0 -> Z.rem x y <= 0) by (intros; by apply Z.rem_nonpos).
  apply andb_true_iff. split; apply Z.leb_le; lia.
Qed.

Lemma returns_int_rem (x y : Z) :
  in_int x = true -> returns (fun r => in_int r = true) (int_rem x y).
Proof.
  intros Hx. unfold int_rem. destruct (y =? 0); [by apply returns_stuck|].
  destruct (in_int (Z.quot x y)); [|by apply returns_stuck].
  apply returns_ret. by apply rem_in_int.
Qed.

Lemma well_formed_int (z : Z) : in_int z = true -> well_formed (any_int z).
Proof. intros Hz. split; [done|]. split; [by intros i [= <-] | by intros c [=]]. Qed.

Lemma well_formed_char (z : Z) : well_formed (any_char (to_char z)).
Proof.
  split; [done|]. split; [by intros i [=]|].
  intros c [= <-]. apply to_char_range.
Qed.

Lemma well_formed_double (d : float) : well_formed (any_double d).
Proof. split; [done|]. split; [by intros i [=] | by intros c [=]]. Qed.

Lemma well_formed_nullptr : well_formed any_nullptr.
Proof. split; [done|]. split; [by intros i [=] | by intros c [=]]. Qed.

Lemma returns_any_string (s : string) : returns well_formed (any_string s).
Proof.
  unfold any_string. eapply returns_bind; [apply returns_any|].
  intros h _. apply returns_ret.
  split; [done|]. split; [by intros i [=] | by intros c [=]].
Qed.

Section Arithmetic.

Variable cfg : config.
Variable prog : program.
Variable fuel : nat.

Lemma returns_forced (a : any) :
  tag a <> Tag.Thunk -> returns (fun v => v = a) (unthunkVariant prog fuel a).
Proof.
  intros Hna w v w1 H. rewrite (unthunkVariant_forced prog fuel a w Hna) in H.
  by inversion H.
Qed.

Ltac wf_step Hwa :=
  match goal with
  | |- returns _ (mret (any_int _)) => apply returns_ret, well_formed_int; assumption
  | |- returns _ (mret (any_char (to_char _))) => apply returns_ret, well_formed_char
  | |- returns _ (mret (any_double _)) => apply returns_ret, well_formed_double
  | |- returns _ (mret any_nullptr) => apply returns_ret, well_formed_nullptr
  | |- returns _ (any_string _) => apply returns_any_string
  | |- returns _ (int_result _ ≫= _) =>
      eapply returns_bind; [apply returns_int_result | intros ? ?]
  | |- returns _ (int_div _ _ ≫= fun z => mret (any_int z)) =>
      eapply returns_bind; [apply returns_int_div | intros ? ?]
  | |- returns _ (int_rem _ _ ≫= fun z => mret (any_int z)) =>
      eapply returns_bind;
        [apply returns_int_rem; destruct Hwa as (_ & Hi & _); by apply Hi
        | intros ? ?]
  | |- returns _ (get_i _ ≫= _) =>
      eapply returns_bind; [apply returns_get_i | intros ? ?]
  | |- returns _ (_ ≫= _) =>
      eapply returns_bind; [apply returns_any | intros ? _]
  | |- returns _ (if ?c then _ else _) => destruct c
  end.

(** X17. The arithmetic operators keep values well formed: whatever [+],
    [-], [*], [/], [%] or unary negate returns on well-formed operands is a
    value whose written member is the one of its tag, whose Integer lies in
    [int] and whose Character lies in [char] (an unsupported combination in
    a release build returns the null raw pointer, which is well formed
    too). *)
Theorem arithmetic_results_well_formed
    (op : arith_op) (a b r : any) (w w1 : world) :
  tag a <> Tag.Thunk ->
  tag b <> Tag.Thunk ->
  well_formed a ->
  well_formed b ->
  (operator_arith cfg prog fuel op a b w = Done r w1 -> well_formed r) /\
  (operator_negate cfg prog fuel a w = Done r w1 -> well_formed r).
Proof.
  intros Hna Hnb Hwa Hwb.
  assert (returns well_formed (operator_arith cfg prog fuel op a b)) as Harith.
  { destruct op;
      unfold operator_arith, operator_plus, operator_minus, operator_times,
        operator_div, operator_mod;
      (eapply returns_bind; [apply (returns_forced a Hna) | intros lhs ->]);
      (eapply returns_bind; [apply (returns_forced b Hnb) | intros rhs ->]);
      try (eapply returns_bind; [apply returns_any | intros ? _]);
      destruct (tag a); repeat wf_step Hwa. }
  assert (returns well_formed (operator_negate cfg prog fuel a)) as Hneg.
  { unfold operator_negate.
    eapply returns_bind; [apply (returns_forced a Hna) | intros rhs ->].
    destruct (tag a); repeat wf_step Hwa. }
  split; intros H; [by eapply Harith | by eapply Hneg].
Qed.

(** X18. An arithmetic operator applied to two values of one tag for which
    it has no case is a failed assertion in a debug build; in a release
    build it returns the null raw pointer, whatever the operands hold. *)
Theorem unsupported_arithmetic (op : arith_op) (a b : any) (w : world) :
  tag a <> Tag.Thunk ->
  tag b = tag a ->
  arith_supported op (tag a) = false ->
  (DEBUG cfg = true ->
     exists msg, operator_arith cfg prog fuel op a b w = AssertionFailed msg) /\
  (DEBUG cfg = false ->
     operator_arith cfg prog fuel op a b w = Done any_nullptr w).
Proof.
  intros Hna Htag Hsup.
  assert (tag b <> Tag.Thunk) as Hnb by congruence.
  split; intros Hdbg;
    destruct op;
    unfold operator_arith, operator_plus, operator_minus, operator_times,
      operator_div, operator_mod, mbind, M_bind;
    rewrite (unthunkVariant_forced prog fuel a w Hna), (unthunkVariant_forced prog fuel b w Hnb);
    rewrite ?Htag, ?tag_eqb_refl, ?assert_true;
    destruct (tag a); try discriminate Hsup; try (by destruct Hna);
    rewrite ?(assert_false_debug cfg _ _ Hdbg), ?(assert_release cfg _ _ _ Hdbg);
    eauto.
Qed.

(** X19. A comparison whose left operand has a tag the macro has no case
    for (a function, a raw pointer, an array, a map, a data tuple, a
    closure) is a failed assertion in a debug build; in a release build
    every operator, [==] and [!=] alike, returns [false]. *)
Theorem unsupported_comparison (op : cmp_op) (a b : any) (w : world) :
  tag a <> Tag.Thunk ->
  tag b <> Tag.Thunk ->
  cmp_supported (tag a) = false ->
  (DEBUG cfg = true ->
     operator_cmp cfg prog fuel op a b w
       = AssertionFailed "Unsupported type for operator") /\
  (DEBUG cfg = false ->
     operator_cmp cfg prog fuel op a b w = Done false w).
Proof.
  intros Hna Hnb Hsup.
  split; intros Hdbg;
    unfold operator_cmp, mbind, M_bind;
    rewrite (unthunkVariant_forced prog fuel a w Hna), (unthunkVariant_forced prog fuel b w Hnb);
    destruct (tag a); try discriminate Hsup; try (by destruct Hna);
    rewrite ?(assert_false_debug cfg _ _ Hdbg), ?(assert_release cfg _ _ _ Hdbg);
    reflexivity.
Qed.

End Arithmetic.

Section NativeOperands.

Variable cfg : config.
Variable prog : program.
Variable fuel : nat.





(** X21. Comparing a Pointer-tagged value compares the addresses of the two
    handles, with no assertion on the right operand, which may be any value
    stored through the same union member (a Pointer, a Map or a Data
    tuple): [==] holds exactly when both hold the same address. *)
Theorem pointer_comparison_by_address
    (op : cmp_op) (p q : managed) (tb : Tag.t) (w : world) :
  tb <> Tag.Thunk ->
  operator_cmp cfg prog fuel op (any_pointer p) (Any tb (U_p q)) w
    = Done (cmpZ op (addr p) (addr q)) w /\
  (cmpZ OpEq (addr p) (addr q) = true <-> p = q).
Proof.
  intros Htb. split.
  - unfold operator_cmp, mbind, M_bind.
    rewrite (unthunkVariant_forced prog fuel (any_pointer p) w) by discriminate.
    by rewrite (unthunkVariant_forced prog fuel (Any tb (U_p q)) w) by exact Htb.
  - simpl. rewrite Z.eqb_eq. destruct p, q; simpl; split; intros H; try done;
      by inversion H.
Qed.

(** X22. [any(long)] builds the same Integer as [any(int)] for a value in
    the range of [int]; outside that range a debug build aborts and a release
    build keeps the value converted to [int], still a well-formed Integer. *)
Theorem any_long_range (val : Z) (w : world) :
  (in_int val = true -> any_long cfg val w = Done (any_int val) w) /\
  (in_int val = false -> DEBUG cfg = true ->
     any_long cfg val w = AssertionFailed "val >= min && val <= max") /\
  (DEBUG cfg = false ->
     exists i, any_long cfg val w = Done (any_int i) w /\ well_formed (any_int i) /\
               (i - val) mod 2 ^ 32 = 0).
Proof.
  unfold any_long, mbind, M_bind. repeat split.
  - intros Hin. rewrite Hin, assert_true. unfold mret, M_ret. do 2 f_equal.
    unfold any_int. f_equal. f_equal.
    unfold in_int, int_min, int_max in *.
    apply andb_true_iff in Hin as [Hlo Hhi]. apply Z.leb_le in Hlo, Hhi.
    rewrite Z.mod_small; lia.
  - intros Hout Hdbg. by rewrite Hout, assert_false_debug.
  - intros Hrel. rewrite assert_release by exact Hrel.
    eexists. split; [reflexivity|]. split.
    + apply well_formed_int. unfold in_int, int_min, int_max.
      pose proof (Z.mod_pos_bound (val - -2147483648) (2 ^ 32)).
      apply andb_true_iff. split; apply Z.leb_le; lia.
    + unfold int_min.
      replace ((val - -2147483648) mod 2 ^ 32 + -2147483648 - val)
        with (- ((val - -2147483648) - (val - -2147483648) mod 2 ^ 32)) by lia.
      rewrite Z.mod_opp_l_z; [reflexivity | lia|].
      rewrite Zminus_mod, Z.mod_mod, Z.sub_diag by lia. reflexivity.
Qed.

End NativeOperands.

(** ** Further properties of copying and destruction *)

Section Ownership.

Variable cfg : config.
Variable fuel : nat.

Lemma managed_copy_spec (m m' : managed) (w w1 : world) :
  managed_copy cfg m w = Done m' w1 ->
  m' = m /\ trace w1 = trace w /\ dom (heap w1) = dom (heap w).
Proof.
  unfold managed_copy. destruct (USE_GC cfg); [by intros [= <- <-]|].
  destruct m as [l|]; [|by intros [= <- <-]].
  unfold mbind, M_bind, get_heap. simpl.
  destruct (heap w !! l) as [c|] eqn:Hl; [|done].
  intros [= <- <-]. simpl. repeat split.
  apply dom_insert_lookup_L. by eexists.
Qed.

Ltac copied H :=
  unfold mbind, M_bind in H; simpl in H;
  first
    [ discriminate H
    | by (inversion H; subst)
    | match type of H with
      | match managed_copy cfg ?m ?w with _ => _ end = _ =>
          let Hc := fresh "Hc" in
          destruct (managed_copy cfg m w) as [m' w'| | |] eqn:Hc; try discriminate H;
          apply managed_copy_spec in Hc as (-> & Ht & Hd);
          by (inversion H; subst)
      end ].

Lemma assign_spec (other : any) (u : storage) (w w1 : world) :
  assign cfg other w = Done u w1 ->
  u = un other /\ trace w1 = trace w /\ dom (heap w1) = dom (heap w).
Proof.
  destruct other as [t su]. unfold assign. simpl.
  destruct t, su; intros H; copied H.
Qed.

(** X23. A copy is equal to its source, for every tag: whenever the copy
    constructor, the move constructor or an assignment returns, the new
    value has the tag and the member of the source; constructing the copy
    calls nothing and neither allocates nor frees a cell. *)
Theorem copy_equals_source (self other a : any) (w w1 : world) :
  (copy_construct cfg other w = Done a w1 ->
     a = other /\ trace w1 = trace w /\ dom (heap w1) = dom (heap w)) /\
  (move_construct cfg other w = Done a w1 ->
     a = other /\ trace w1 = trace w /\ dom (heap w1) = dom (heap w)) /\
  (operator_assign cfg fuel self other w = Done a w1 -> a = other /\ trace w1 = trace w) /\
  (operator_assign_move cfg fuel self other w = Done a w1 ->
     a = other /\ trace w1 = trace w).
Proof.
  assert (forall w2, (assign cfg other ≫= fun u => mret (Any (tag other) u)) w2 = Done a w1 ->
            a = other /\ trace w1 = trace w2 /\ dom (heap w1) = dom (heap w2)) as Hassign.
  { intros w2 H. unfold mbind, M_bind in H.
    destruct (assign cfg other w2) as [u w3| | |] eqn:Hu; try discriminate H.
    injection H as <- <-. apply assign_spec in Hu as (-> & Ht & Hd).
    by destruct other. }
  unfold copy_construct, move_construct, operator_assign, operator_assign_move.
  destruct (USE_GC cfg).
  - repeat split; by injection H as <- <-.
  - split; [exact (Hassign w)|]. split; [exact (Hassign w)|].
    split; intros H; unfold mbind at 1, M_bind in H;
      (destruct (destruct fuel self w) as [[] w2| | |] eqn:Hd; try discriminate H);
      apply Hassign in H as (-> & Ht & _); (split; [reflexivity|]);
      rewrite Ht; by eapply destruct_trace.
Qed.

(** X24. In the reference-counted mode destruction undoes a copy: copying a
    value whose handle owns a live object and destroying the copy leaves the
    heap and the trace exactly as they were, for each of the seven
    heap-backed tags (the switch of [destruct] releases the member that the
    switch of [assign] acquired). *)
Theorem copy_then_destruct_restores
    (other : any) (l : loc) (r : nat) (o : object) (w : world) :
  USE_GC cfg = false ->
  owned_handle other w = Done (Some l) w ->
  heap w !! l = Some (Cell (S r) o) ->
  (copy_construct cfg other ≫= destruct fuel) w = Done tt w.
Proof.
  intros Hgc Hown Hl.
  assert (forall h : gmap loc cell,
            <[l := Cell (S r) o]> (<[l := Cell (S (S r)) o]> (heap w)) = heap w) as Hback.
  { intros _. rewrite insert_insert_eq. by apply insert_id. }
  unfold copy_construct, destruct, managed_copy. rewrite Hgc.
  destruct other as [t su].
  destruct t, su; simpl in Hown; try discriminate Hown;
    injection Hown as ->;
    unfold assign, managed_copy, owned_handle, mbind, M_bind, get_heap; rewrite Hgc; simpl;
    rewrite Hl; simpl; destruct fuel; simpl;
    unfold mbind, M_bind, get_heap; simpl; rewrite lookup_insert_eq; simpl;
    unfold put_heap; simpl; rewrite (Hback ∅); by destruct w.
Qed.

End Ownership.

(** ** The optimizer's driver *)

Section DriverProperties.

Variable Cpp : Type.
Variable eqb : Cpp -> Cpp -> bool.
Variable supply : Type.
Hypothesis eqb_eq : forall x y, eqb x y = true <-> x = y.



End DriverProperties.


(** ** Concrete instances of the further properties *)

Lemma arithmetic_results_well_formed_witness :
  tag (any_char 100) <> Tag.Thunk /\
  well_formed (any_char 100) /\
  operator_arith debug_build demo 0 OpAdd (any_char 100) (any_char 100) w0
    = Done (any_char (-56)) w0 /\
  well_formed (any_char (-56)).
Proof.
  assert (well_formed (any_char 100)) as Hwf.
  { split; [done|]. split; [by intros i [=] | intros c [= <-]; lia]. }
  split; [discriminate|]. split; [exact Hwf|]. split; [reflexivity|].
  refine (proj1 (arithmetic_results_well_formed debug_build demo 0 OpAdd
                   (any_char 100) (any_char 100) (any_char (-56)) w0 w0
                   _ _ Hwf Hwf) eq_refl); discriminate.
Defined.

Lemma unsupported_arithmetic_witness :
  tag (any_double 1.5) <> Tag.Thunk /\
  arith_supported OpMod (tag (any_double 1.5)) = false /\
  (exists msg, operator_arith debug_build demo 0 OpMod (any_double 1.5) (any_double 2.5) w0
                 = AssertionFailed msg) /\
  operator_arith release_build demo 0 OpMod (any_double 1.5) (any_double 2.5) w0
    = Done any_nullptr w0.
Proof.
  assert (tag (any_double 1.5) <> Tag.Thunk) as Hn by discriminate.
  split; [exact Hn|]. split; [reflexivity|].
  destruct (unsupported_arithmetic debug_build demo 0 OpMod (any_double 1.5)
              (any_double 2.5) w0 Hn eq_refl eq_refl) as [Hdbg _].
  destruct (unsupported_arithmetic release_build demo 0 OpMod (any_double 1.5)
              (any_double 2.5) w0 Hn eq_refl eq_refl) as [_ Hrel].
  split; [by apply Hdbg | by apply Hrel].
Defined.

Lemma unsupported_comparison_witness :
  tag any_nullptr <> Tag.Thunk /\
  cmp_supported (tag any_nullptr) = false /\
  operator_cmp release_build demo 0 OpEq any_nullptr any_nullptr w0 = Done false w0 /\
  operator_cmp release_build demo 0 OpNe any_nullptr any_nullptr w0 = Done false w0 /\
  operator_cmp debug_build demo 0 OpEq any_nullptr any_nullptr w0
    = AssertionFailed "Unsupported type for operator".
Proof.
  assert (tag any_nullptr <> Tag.Thunk) as Hn by discriminate.
  split; [exact Hn|]. split; [reflexivity|].
  split; [|split].
  - by apply (unsupported_comparison release_build demo 0 OpEq _ _ w0 Hn Hn eq_refl).
  - by apply (unsupported_comparison release_build demo 0 OpNe _ _ w0 Hn Hn eq_refl).
  - by apply (unsupported_comparison debug_build demo 0 OpEq _ _ w0 Hn Hn eq_refl).
Defined.


Lemma pointer_comparison_by_address_witness :
  Tag.Map <> Tag.Thunk /\
  operator_cmp debug_build demo 0 OpEq (any_pointer (Some 2%positive))
    (Any Tag.Map (U_p (Some 2%positive))) demo_world = Done true demo_world.
Proof.
  split; [discriminate|].
  refine (proj1 (pointer_comparison_by_address debug_build demo 0 OpEq
                   (Some 2%positive) (Some 2%positive) Tag.Map demo_world _)).
  discriminate.
Defined.

Lemma any_long_range_witness :
  in_int 7 = true /\
  any_long debug_build 7 w0 = Done (any_int 7) w0 /\
  in_int 4294967296 = false /\
  any_long debug_build 4294967296 w0 = AssertionFailed "val >= min && val <= max".
Proof.
  split; [reflexivity|]. split.
  - by apply (any_long_range debug_build 7 w0).
  - split; [reflexivity|]. by apply (any_long_range debug_build 4294967296 w0).
Defined.

Lemma copy_equals_source_witness :
  let other := Any Tag.String (U_s (Some 1%positive)) in
  let w1 := World (<[1%positive := Cell 2 (OString "abc")]> (heap demo_world)) [] in
  copy_construct release_build other demo_world = Done other w1 /\
  other = other /\ trace w1 = trace demo_world /\
  dom (heap w1) = dom (heap demo_world).
Proof.
  split; [reflexivity|].
  exact (proj1 (copy_equals_source release_build 0
                  (Any Tag.String (U_s (Some 1%positive)))
                  (Any Tag.String (U_s (Some 1%positive)))
                  (Any Tag.String (U_s (Some 1%positive))) demo_world
                  (World (<[1%positive := Cell 2 (OString "abc")]> (heap demo_world)) []))
           eq_refl).
Defined.

Lemma copy_then_destruct_restores_witness :
  let other := Any Tag.Map (U_p (Some 2%positive)) in
  USE_GC release_build = false /\
  owned_handle other demo_world = Done (Some 2%positive) demo_world /\
  heap demo_world !! 2%positive = Some (Cell 1 (OMap demo_map)) /\
  (copy_construct release_build other ≫= destruct 3) demo_world = Done tt demo_world.
Proof.
  split; [reflexivity|]. split; [reflexivity|]. split; [reflexivity|].
  exact (copy_then_destruct_restores release_build 3
           (Any Tag.Map (U_p (Some 2%positive))) 2%positive 0%nat (OMap demo_map)
           demo_world eq_refl eq_refl eq_refl).
Defined.
